(** * Bouncing balls (raylib, C): a shallow embedding of [src/main.c]

    The program keeps an array of 2500 balls, moves every ball once per
    frame with [UpdateBall] and draws them, until the window is closed.

    All the arithmetic of the program is on C [float]s.  They are modelled
    as IEEE 754 binary32 numbers (24 bits of precision, round to nearest,
    ties to even), through the executable specification of the Standard
    Library ([SpecFloat], instantiated at [prec = 24] and [emax = 128]).
    This is the arithmetic of the WebAssembly target of the repository
    ([f32.add], [f32.sub], [f32.mul], [f32.div], [f32.convert_i32_s]) and
    of every C implementation with [FLT_EVAL_METHOD = 0].  All the NaNs
    are one value: the program never looks at a payload.  C [int]s are
    modelled as [Z]; the only integers of the program are its constants
    and the results of the random generator, all far from overflow.

    The file has the program first (constants, [Ball], [UpdateBall], the
    initializer, the frame and the main loop, with raylib reduced to the
    answers it gives and to the trace of the calls it receives), then the
    facts of binary32 arithmetic that the program rests on, then the
    properties of the program. *)

From Stdlib Require Import ZArith Lia Bool List String.
From Stdlib Require Import SpecFloat.
Import ListNotations.
Local Open Scope Z_scope.

(** ** C [float] as binary32 *)

Module Binary32.

Definition prec : Z := 24.
Definition emax : Z := 128.

Definition float : Type := spec_float.

(** The four operations, rounded to nearest even. *)
Definition add : float -> float -> float := SFadd prec emax.
Definition sub : float -> float -> float := SFsub prec emax.
Definition mul : float -> float -> float := SFmul prec emax.
Definition div : float -> float -> float := SFdiv prec emax.

(** The comparisons of C: false as soon as an operand is a NaN. *)
Definition le (a b : float) : bool := SFleb a b.
Definition ge (a b : float) : bool := SFleb b a.

Definition abs : float -> float := SFabs.
Definition sqrt : float -> float := SFsqrt prec emax.

(** [(float)z]: conversion of an [int], rounded to nearest even. *)
Definition of_int (z : Z) : float := binary_normalize prec emax z 0 false.

(** [(int)f]: truncation toward zero.  C leaves the conversion of a NaN,
    of an infinity and of a value out of the range of [int] undefined;
    the program converts only its three constants. *)
Definition to_int (f : float) : Z :=
  match f with
  | S754_finite s m e =>
      let a := if 0 <=? e then Z.shiftl (Zpos m) e
               else Z.shiftr (Zpos m) (- e) in
      if s then - a else a
  | _ => 0
  end.

(** A value the type [float] of C can hold: the mantissa and the
    exponent of a finite number are the canonical ones of binary32. *)
Definition wf (f : float) : bool := valid_binary prec emax f.

Definition is_nan (f : float) : bool :=
  match f with S754_nan => true | _ => false end.

Definition is_finite (f : float) : bool :=
  match f with S754_zero _ | S754_finite _ _ _ => true | _ => false end.

End Binary32.

Import Binary32.

(** ** Configuration constants (lines 4-12) *)

Definition SCREEN_WIDTH : Z := 800.
Definition SCREEN_HEIGHT : Z := 450.
Definition TARGET_FPS : Z := 60.
Definition NUM_BALLS : nat := 2500.
Definition BALL_RADIUS : float := of_int 20.       (* 20.0f *)
Definition BALL_MIN_SPEED : float := of_int 2.     (* 2.0f *)
Definition BALL_MAX_SPEED : float := of_int 8.     (* 8.0f *)
Definition UI_TEXT_SIZE : Z := 20.

(** ** Data model (lines 14-21) *)

(** The colours of [raylib.h] that the program names. *)
Inductive Color : Type :=
  | RED | BLUE | GREEN | YELLOW | PURPLE | ORANGE | PINK | GOLD | LIME
  | MAROON | DARKGREEN | SKYBLUE | DARKBLUE | MAGENTA | DARKBROWN | GRAY
  | DARKGRAY | RAYWHITE.

Record Vector2 : Type := mkVector2 { x : float; y : float }.

Record Ball : Type := mkBall {
  position : Vector2;
  velocity : Vector2;
  radius : float;
  color : Color
}.

(** Field assignments through the pointer [ball]. *)
Definition set_position_x (v : float) (b : Ball) : Ball :=
  mkBall (mkVector2 v (y (position b))) (velocity b) (radius b) (color b).
Definition set_position_y (v : float) (b : Ball) : Ball :=
  mkBall (mkVector2 (x (position b)) v) (velocity b) (radius b) (color b).
Definition set_velocity_x (v : float) (b : Ball) : Ball :=
  mkBall (position b) (mkVector2 v (y (velocity b))) (radius b) (color b).
Definition set_velocity_y (v : float) (b : Ball) : Ball :=
  mkBall (position b) (mkVector2 (x (velocity b)) v) (radius b) (color b).

(** ** The physics step (lines 24-43) *)

(** The two wall tests, on the ball as it is when the test is reached. *)
Definition hits_x (b : Ball) (screenWidth : Z) : bool :=
  ge (add (x (position b)) (radius b)) (of_int screenWidth)
  || le (sub (x (position b)) (radius b)) (of_int 0).

Definition hits_y (b : Ball) (screenHeight : Z) : bool :=
  ge (add (y (position b)) (radius b)) (of_int screenHeight)
  || le (sub (y (position b)) (radius b)) (of_int 0).

(** Lines 27-28: [position += velocity]. *)
Definition move (b : Ball) : Ball :=
  let b := set_position_x (add (x (position b)) (x (velocity b))) b in
  set_position_y (add (y (position b)) (y (velocity b))) b.

(** Lines 31-32. *)
Definition bounce_x (screenWidth : Z) (b : Ball) : Ball :=
  if hits_x b screenWidth
  then set_velocity_x (mul (x (velocity b)) (of_int (-1))) b
  else b.

(** Lines 34-42. *)
Definition bounce_y (screenHeight : Z) (b : Ball) : Ball :=
  if hits_y b screenHeight then
    let b := set_velocity_y (mul (y (velocity b)) (of_int (-1))) b in
    if ge (add (y (position b)) (radius b)) (of_int screenHeight)
    then set_position_y (sub (of_int screenHeight) (radius b)) b
    else if le (sub (y (position b)) (radius b)) (of_int 0)
    then set_position_y (radius b) b
    else b
  else b.

Definition UpdateBall (ball : Ball) (screenWidth screenHeight : Z) : Ball :=
  bounce_y screenHeight (bounce_x screenWidth (move ball)).

(** ** The initializer (lines 56-79) *)

Definition ballColors : list Color :=
  [RED; BLUE; GREEN; YELLOW; PURPLE; ORANGE; PINK; GOLD; LIME; MAROON;
   DARKGREEN; SKYBLUE; DARKBLUE; MAGENTA; DARKBROWN; GRAY; DARKGRAY].

Definition numColors : Z := Z.of_nat (List.length ballColors).

(** [speed *= -1] under [if (flip)]: any non-zero [flip] counts as true. *)
Definition random_sign (flip : Z) (speed : float) : float :=
  if flip =? 0 then speed else mul speed (of_int (-1)).

Section Initializer.

(** [GetRandomValue] belongs to raylib.  It is a function of its two
    arguments and of the hidden state of the generator, of type [rng]. *)
Variable rng : Type.
Variable GetRandomValue : Z -> Z -> rng -> Z * rng.

(** One iteration of the loop of line 62: seven draws, in this order. *)
Definition init_ball (g : rng) : Ball * rng :=
  let '(rx, g) := GetRandomValue (to_int BALL_RADIUS)
                    (SCREEN_WIDTH - to_int BALL_RADIUS) g in
  let '(ry, g) := GetRandomValue (to_int BALL_RADIUS)
                    (SCREEN_HEIGHT - to_int BALL_RADIUS) g in
  let '(sx, g) := GetRandomValue (to_int (mul BALL_MIN_SPEED (of_int 100)))
                    (to_int (mul BALL_MAX_SPEED (of_int 100))) g in
  let speedX := div (of_int sx) (of_int 100) in
  let '(sy, g) := GetRandomValue (to_int (mul BALL_MIN_SPEED (of_int 100)))
                    (to_int (mul BALL_MAX_SPEED (of_int 100))) g in
  let speedY := div (of_int sy) (of_int 100) in
  let '(fx, g) := GetRandomValue 0 1 g in
  let speedX := random_sign fx speedX in
  let '(fy, g) := GetRandomValue 0 1 g in
  let speedY := random_sign fy speedY in
  let '(ci, g) := GetRandomValue 0 (numColors - 1) g in
  (mkBall (mkVector2 (of_int rx) (of_int ry))
          (mkVector2 speedX speedY)
          BALL_RADIUS
          (nth (Z.to_nat ci) ballColors RED),
   g).

(** The first [n] cells of the array [balls], in the order of the loop. *)
Fixpoint init_balls (n : nat) (g : rng) : list Ball * rng :=
  match n with
  | O => ([], g)
  | S n' =>
      let '(b, g) := init_ball g in
      let '(bs, g) := init_balls n' g in
      (b :: bs, g)
  end.

End Initializer.

(** ** The frame and the main loop (lines 45-49 and 81-103) *)

(** The calls to raylib that leave a trace. *)
Inductive Event : Type :=
  | InitWindow (width height : Z) (title : string)
  | SetTargetFPS (fps : Z)
  | BeginDrawing
  | ClearBackground (c : Color)
  | DrawCircleV (center : Vector2) (r : float) (c : Color)
  | DrawText (text : string) (posX posY fontSize : Z) (c : Color)
  | EndDrawing
  | CloseWindow.

Definition DrawBall (ball : Ball) : Event :=
  DrawCircleV (position ball) (radius ball) (color ball).

(** Lines 84-87: the physics step over the array. *)
Definition update_all (balls : list Ball) : list Ball :=
  map (fun b => UpdateBall b SCREEN_WIDTH SCREEN_HEIGHT) balls.

(** Lines 90-99: the render step. *)
Definition render_all (balls : list Ball) : list Event :=
  [BeginDrawing; ClearBackground RAYWHITE]
  ++ map DrawBall balls
  ++ [DrawText "C Version - Procedural Programming" 10 10 UI_TEXT_SIZE DARKGRAY;
      EndDrawing].

(** The loop of line 81.  [closes] holds the answers that
    [WindowShouldClose] will give, one per call; [None] when they run out
    while the loop is still turning.  The result keeps the answers that
    were never asked for. *)
Fixpoint main_loop (closes : list bool) (balls : list Ball) (tr : list Event)
  : option (list Ball * list Event * list bool) :=
  match closes with
  | [] => None
  | true :: rest => Some (balls, tr, rest)
  | false :: rest =>
      let balls := update_all balls in
      main_loop rest balls (tr ++ render_all balls)
  end.

(** What a run of [main] leaves behind. *)
Record Outcome : Type := mkOutcome {
  exit_code : Z;
  final_balls : list Ball;
  trace : list Event;
  unread_closes : list bool
}.

Definition main {rng : Type} (GetRandomValue : Z -> Z -> rng -> Z * rng)
    (g : rng) (closes : list bool) : option Outcome :=
  let tr := [InitWindow SCREEN_WIDTH SCREEN_HEIGHT "Raylib C - Bouncing Ball";
             SetTargetFPS TARGET_FPS] in
  let '(balls, _) := init_balls rng GetRandomValue NUM_BALLS g in
  match main_loop closes balls tr with
  | None => None
  | Some (balls, tr, rest) => Some (mkOutcome 0 balls (tr ++ [CloseWindow]) rest)
  end.

(** [n] frames seen from outside: the balls after them and what they draw. *)
Fixpoint frames_balls (n : nat) (balls : list Ball) : list Ball :=
  match n with
  | O => balls
  | S n' => frames_balls n' (update_all balls)
  end.

Fixpoint frames_trace (n : nat) (balls : list Ball) : list Event :=
  match n with
  | O => []
  | S n' => render_all (update_all balls) ++ frames_trace n' (update_all balls)
  end.

(** ** Binary32 numbers as integers

    Every finite binary32 number is an integer multiple of [2 ^ (-149)],
    the smallest subnormal.  Counted in that unit, numbers are integers,
    the order of the numbers is the order of [Z], and an operation is the
    exact operation of [Z] followed by a rounding of integers to 24
    significant bits.  The infinities are given the first value that
    rounding can no longer reach, [2 ^ 277] (the largest finite number is
    [(2 ^ 24 - 1) * 2 ^ 253]). *)

Definition overflow : Z := 2 ^ 277.

Definition F2Z (f : float) : Z :=
  match f with
  | S754_zero _ => 0
  | S754_infinity s => cond_Zopp s overflow
  | S754_nan => 0
  | S754_finite s m e => cond_Zopp s (Zpos m * 2 ^ (e + 149))
  end.

Definition b2z (b : bool) : Z := if b then 1 else 0.

(** Rounding [m / 2 ^ n] to an integer goes up when the remainder is more
    than half, and on a tie when the quotient is odd. *)
Definition round_up (n m : Z) : bool :=
  (2 ^ n <? 2 * (m mod 2 ^ n))
  || ((2 * (m mod 2 ^ n) =? 2 ^ n) && Z.odd (m / 2 ^ n)).

(** The round bit and the sticky bit that [shr] computes for [m / 2 ^ n]. *)
Definition rbit (m n : Z) : bool :=
  if n =? 0 then false else Z.odd (m / 2 ^ (n - 1)).
Definition sbit (m n : Z) : bool :=
  if n =? 0 then false else negb (m mod 2 ^ (n - 1) =? 0).

(** The number of low bits that a positive integer loses to fit in 24. *)
Definition shift_of (z : Z) : Z := Z.max (Z.log2 z + 1 - 24) 0.
Definition rnd_at (n z : Z) : Z := (z / 2 ^ n + b2z (round_up n z)) * 2 ^ n.
Definition rnd_pos (z : Z) : Z := rnd_at (shift_of z) z.

(** Rounding to nearest even, with overflow to the value of infinity. *)
Definition rnd (z : Z) : Z := Z.sgn z * Z.min (rnd_pos (Z.abs z)) overflow.

(** [f] is a binary32 number, not a NaN, of value [v]. *)
Definition represents (f : float) (v : Z) : Prop :=
  wf f = true /\ is_nan f = false /\ F2Z f = v.

(** [f] is a finite binary32 number between the integers [lo] and [hi]. *)
Definition between (f : float) (lo hi : Z) : Prop :=
  wf f = true /\ is_finite f = true /\ lo * 2 ^ 149 <= F2Z f <= hi * 2 ^ 149.

(** ** Vocabulary of the properties *)

(** The speed of a ball, [sqrt (vx * vx + vy * vy)] in binary32. *)
Definition speed (v : Vector2) : float :=
  sqrt (add (mul (x v) (x v)) (mul (y v) (y v))).

(** The bounds of the specification on a new ball, for the 800x450
    viewport and the radius 20. *)
Definition position_x_ok (p : float) : bool :=
  le (of_int 20) p && le p (of_int 780).
Definition position_y_ok (p : float) : bool :=
  le (of_int 20) p && le p (of_int 430).
Definition speed_ok (v : float) : bool :=
  le BALL_MIN_SPEED (abs v) && le (abs v) BALL_MAX_SPEED.
Definition initial_ok (b : Ball) : bool :=
  position_x_ok (x (position b)) && position_y_ok (y (position b))
  && speed_ok (x (velocity b)) && speed_ok (y (velocity b)).

(** What holds of every ball of the program at every frame: its numbers
    are binary32 numbers, its radius is [BALL_RADIUS], it is between the
    ceiling and the floor, and both components of its velocity have an
    absolute value in [2.0, 8.0].  What holds of [position.x] is
    [side_ok], below. *)
Definition ball_ok (b : Ball) : Prop :=
  radius b = BALL_RADIUS /\
  wf (x (position b)) = true /\ wf (y (position b)) = true /\
  wf (x (velocity b)) = true /\ wf (y (velocity b)) = true /\
  position_y_ok (y (position b)) = true /\
  speed_ok (x (velocity b)) = true /\ speed_ok (y (velocity b)) = true.

(** The ball after [n] physics steps. *)
Fixpoint steps (n : nat) (b : Ball) (W H : Z) : Ball :=
  match n with
  | O => b
  | S n' => steps n' (UpdateBall b W H) W H
  end.

(** The integers from [lo] to [hi], both included. *)
Definition Zrange (lo hi : Z) : list Z :=
  map (fun i => lo + Z.of_nat i) (seq 0 (Z.to_nat (hi + 1 - lo))).

(** A ball of radius [BALL_RADIUS] at integer coordinates, with an
    integer velocity. *)
Definition ball_at (px py vx vy : Z) : Ball :=
  mkBall (mkVector2 (of_int px) (of_int py))
         (mkVector2 (of_int vx) (of_int vy)) BALL_RADIUS RED.

(** A generator that always answers the lower bound. *)
Definition lowest (lo hi : Z) (g : unit) : Z * unit := (lo, g).

(** ** Vocabulary of the traces *)

(** The kinds of calls that a frame makes. *)
Definition is_circle (e : Event) : bool :=
  match e with DrawCircleV _ _ _ => true | _ => false end.
Definition is_begin (e : Event) : bool :=
  match e with BeginDrawing => true | _ => false end.
Definition is_end (e : Event) : bool :=
  match e with EndDrawing => true | _ => false end.
Definition is_text (e : Event) : bool :=
  match e with DrawText _ _ _ _ _ => true | _ => false end.

Definition count (f : Event -> bool) (tr : list Event) : nat :=
  List.length (filter f tr).

(** The order in which raylib expects its calls: a window, a frame rate,
    then frames, each of them opened, cleared, filled with one circle per
    ball, labelled and closed, and a last call that closes the window. *)
Inductive Phase : Type :=
  | NoWindow
  | WindowOpened
  | Idle
  | FrameBegun
  | Drawing (drawn : nat)
  | LabelDrawn
  | WindowClosed.

Definition protocol_step (p : Phase) (e : Event) : option Phase :=
  match p, e with
  | NoWindow, InitWindow _ _ _ => Some WindowOpened
  | WindowOpened, SetTargetFPS _ => Some Idle
  | Idle, BeginDrawing => Some FrameBegun
  | Idle, CloseWindow => Some WindowClosed
  | FrameBegun, ClearBackground _ => Some (Drawing 0)
  | Drawing k, DrawCircleV _ _ _ => Some (Drawing (S k))
  | Drawing k, DrawText _ _ _ _ _ =>
      if Nat.eqb k NUM_BALLS then Some LabelDrawn else None
  | LabelDrawn, EndDrawing => Some Idle
  | _, _ => None
  end.

Fixpoint protocol (p : Phase) (tr : list Event) : option Phase :=
  match tr with
  | [] => Some p
  | e :: tr' =>
      match protocol_step p e with
      | Some p' => protocol p' tr'
      | None => None
      end
  end.

(** What can be said of every circle that the program draws. *)
Definition circle_ok (e : Event) : Prop :=
  match e with
  | DrawCircleV center r c =>
      r = BALL_RADIUS /\ In c ballColors /\ position_y_ok (y center) = true
  | _ => True
  end.

(** A ball whose [position.y] is not a number. *)
Definition lost_ball : Ball :=
  mkBall (mkVector2 (of_int 100) S754_nan)
         (mkVector2 (of_int 3) (of_int 4)) BALL_RADIUS RED.

(** The run in which the window is closed after one frame, with the
    generator that always answers the lower bound. *)
Definition one_frame_run : Outcome :=
  mkOutcome 0 (update_all (fst (init_balls unit lowest NUM_BALLS tt)))
    ([InitWindow SCREEN_WIDTH SCREEN_HEIGHT "Raylib C - Bouncing Ball";
      SetTargetFPS TARGET_FPS]
     ++ render_all (update_all (fst (init_balls unit lowest NUM_BALLS tt)))
     ++ [CloseWindow])
    [true].

(** Where a ball of the program can be horizontally, no clamp keeping
    [position.x] between the walls: between them; or at or past the left
    wall by no more than one step of its velocity, which points to the
    right; or at or past the right wall by no more than one step of its
    velocity, which points to the left. *)
Definition side_ok (b : Ball) : bool :=
  position_x_ok (x (position b))
  || (le (of_int 0) (x (velocity b))
      && le (add (of_int 20) (SFopp (x (velocity b)))) (x (position b))
      && le (x (position b)) (of_int 20))
  || (le (x (velocity b)) (of_int 0)
      && le (of_int 780) (x (position b))
      && le (x (position b)) (add (of_int 780) (SFopp (x (velocity b))))).

(** The state of a ball of the program at the end of a frame. *)
Definition frame_ok (b : Ball) : Prop := ball_ok b /\ side_ok b = true.


(** * Facts about binary32 arithmetic

    The Standard Library specifies the operations and proves nothing of
    them.  What the program needs is proved here, for binary32: an
    addition or a subtraction of two numbers is the exact one followed by
    [rnd]; [rnd] is monotone and leaves the binary32 numbers where they
    are; the comparisons are those of [Z]; a multiplication by [-1] is
    exact. *)

(** ** Digits and right shifts *)


Lemma digits2_pos_log2 (m : positive) :
  Zpos (digits2_pos m) = Z.log2 (Zpos m) + 1.
Proof.
  induction m as [m IH | m IH | ].
  - change (Zpos (digits2_pos m~1)) with (Zpos (Pos.succ (digits2_pos m))).
    rewrite Pos2Z.inj_succ, IH.
    change (Zpos m~1) with (2 * Zpos m + 1).
    rewrite Z.log2_succ_double by lia. lia.
  - change (Zpos (digits2_pos m~0)) with (Zpos (Pos.succ (digits2_pos m))).
    rewrite Pos2Z.inj_succ, IH.
    change (Zpos m~0) with (2 * Zpos m).
    rewrite Z.log2_double by lia. lia.
  - reflexivity.
Qed.

Lemma digits2_pos_bounds (m : positive) :
  2 ^ (Zpos (digits2_pos m) - 1) <= Zpos m < 2 ^ Zpos (digits2_pos m).
Proof.
  rewrite digits2_pos_log2.
  replace (Z.log2 (Zpos m) + 1 - 1) with (Z.log2 (Zpos m)) by lia.
  replace (Z.log2 (Zpos m) + 1) with (Z.succ (Z.log2 (Zpos m))) by lia.
  apply Z.log2_spec. lia.
Qed.

Lemma iter_pos_nat {A} (f : A -> A) (p : positive) (a : A) :
  iter_pos f p a = Nat.iter (Pos.to_nat p) f a.
Proof.
  revert a. induction p as [p IH | p IH | ]; intros a; simpl iter_pos.
  - rewrite !IH, Pos2Nat.inj_xI.
    replace (S (2 * Pos.to_nat p))%nat with (Pos.to_nat p + (Pos.to_nat p + 1))%nat by lia.
    rewrite !Nat.iter_add. reflexivity.
  - rewrite !IH, Pos2Nat.inj_xO.
    replace (2 * Pos.to_nat p)%nat with (Pos.to_nat p + Pos.to_nat p)%nat by lia.
    rewrite Nat.iter_add. reflexivity.
  - reflexivity.
Qed.

(** One step of [shr] halves the mantissa; the bit that falls becomes the
    round bit, and the old round bit goes to the sticky bit. *)
Lemma shr_1_spec (m : Z) (r s : bool) :
  0 <= m ->
  shr_1 (Build_shr_record m r s) = Build_shr_record (m / 2) (Z.odd m) (r || s).
Proof.
  intros Hm. destruct m as [ | [p | p | ] | p]; try lia; try reflexivity.
  - simpl shr_1. f_equal.
    rewrite Pos2Z.inj_xI. replace (2 * Zpos p + 1) with (1 + Zpos p * 2) by lia.
    rewrite Z.div_add by lia. reflexivity.
  - simpl shr_1. f_equal.
    rewrite Pos2Z.inj_xO. replace (2 * Zpos p) with (0 + Zpos p * 2) by lia.
    rewrite Z.div_add by lia. reflexivity.
Qed.

(** [k + 1] halvings of [m]: the quotient, the last bit shifted out and
    whether a lower bit was set. *)
Lemma shr_iter_spec (k : nat) (m : Z) :
  0 <= m ->
  Nat.iter (S k) shr_1 (Build_shr_record m false false)
  = Build_shr_record (m / 2 ^ Z.of_nat (S k))
                     (Z.odd (m / 2 ^ Z.of_nat k))
                     (negb (m mod 2 ^ Z.of_nat k =? 0)).
Proof.
  intros Hm. induction k as [ | k IH].
  - change (Nat.iter 1 shr_1 ?a) with (shr_1 a). rewrite shr_1_spec by lia.
    change (2 ^ Z.of_nat 1) with 2. change (2 ^ Z.of_nat 0) with 1.
    rewrite Z.div_1_r, Z.mod_1_r. reflexivity.
  - change (Nat.iter (S (S k)) shr_1 ?a) with (shr_1 (Nat.iter (S k) shr_1 a)).
    rewrite IH.
    assert (Hp : 0 < 2 ^ Z.of_nat k) by (apply Z.pow_pos_nonneg; lia).
    assert (Hs : 2 ^ Z.of_nat (S k) = 2 ^ Z.of_nat k * 2)
      by (rewrite Nat2Z.inj_succ, Z.pow_succ_r; lia).
    assert (Hss : 2 ^ Z.of_nat (S (S k)) = 2 ^ Z.of_nat (S k) * 2)
      by (rewrite (Nat2Z.inj_succ (S k)), Z.pow_succ_r; lia).
    rewrite shr_1_spec by (apply Z.div_pos; lia).
    f_equal.
    + rewrite Hss, Z.div_div by lia. reflexivity.
    + (* the sticky bit *)
      rewrite Hs.
      rewrite Z.rem_mul_r by lia.
      pose proof (Z.mod_pos_bound m (2 ^ Z.of_nat k) Hp) as Hb.
      pose proof (Z.mod_pos_bound (m / 2 ^ Z.of_nat k) 2 ltac:(lia)) as Hb2.
      rewrite Zodd_mod.
      destruct (Z.eqb_spec ((m / 2 ^ Z.of_nat k) mod 2) 1) as [E | E];
      destruct (Z.eqb_spec (m mod 2 ^ Z.of_nat k) 0) as [E' | E'];
      destruct (Z.eqb_spec (m mod 2 ^ Z.of_nat k + 2 ^ Z.of_nat k * ((m / 2 ^ Z.of_nat k) mod 2)) 0) as [E'' | E''];
      simpl; try reflexivity; exfalso; nia.
Qed.

(** [shr] by [n] bits: the quotient by [2 ^ n], with the two bits that
    locate the remainder against the half. *)
Lemma shr_spec (m e n : Z) :
  0 <= m -> 0 <= n ->
  shr (Build_shr_record m false false) e n
  = (Build_shr_record (m / 2 ^ n) (rbit m n) (sbit m n), e + n).
Proof.
  intros Hm Hn. destruct n as [ | p | p]; try lia.
  - simpl. rewrite Z.div_1_r, Z.add_0_r. reflexivity.
  - unfold shr. rewrite iter_pos_nat.
    destruct (Pos.to_nat p) as [ | k] eqn:Hk; [lia | ].
    rewrite shr_iter_spec by lia.
    assert (Hp : Zpos p = Z.of_nat (S k)) by lia.
    unfold rbit, sbit. rewrite Hp.
    destruct (Z.eqb_spec (Z.of_nat (S k)) 0) as [E | _]; [lia | ].
    replace (Z.of_nat (S k) - 1) with (Z.of_nat k) by lia.
    reflexivity.
Qed.

(** [round_nearest_even] reads in those two bits what [round_up] reads
    in the remainder. *)
Lemma rne_spec (m n : Z) :
  0 <= m -> 0 <= n ->
  round_nearest_even (m / 2 ^ n)
    (loc_of_shr_record (Build_shr_record (m / 2 ^ n) (rbit m n) (sbit m n)))
  = m / 2 ^ n + b2z (round_up n m).
Proof.
  intros Hm Hn. unfold rbit, sbit, round_up.
  destruct (Z.eqb_spec n 0) as [-> | Hn0].
  - change (2 ^ 0) with 1. rewrite Z.mod_1_r. simpl. lia.
  - assert (Hp : 0 < 2 ^ (n - 1)) by (apply Z.pow_pos_nonneg; lia).
    assert (Hs : 2 ^ n = 2 ^ (n - 1) * 2).
    { replace n with (Z.succ (n - 1)) at 1 by lia. rewrite Z.pow_succ_r; lia. }
    assert (Hq : m / 2 ^ n = m / 2 ^ (n - 1) / 2) by (rewrite Hs, Z.div_div; lia).
    assert (Hr : m mod 2 ^ n
                 = m mod 2 ^ (n - 1) + 2 ^ (n - 1) * ((m / 2 ^ (n - 1)) mod 2))
      by (rewrite Hs; apply Z.rem_mul_r; lia).
    pose proof (Z.mod_pos_bound m (2 ^ (n - 1)) Hp) as Hb.
    pose proof (Z.mod_pos_bound (m / 2 ^ (n - 1)) 2 ltac:(lia)) as Hb2.
    rewrite Hr. rewrite (Zodd_mod (m / 2 ^ (n - 1))).
    set (a := m mod 2 ^ (n - 1)) in *. set (c := (m / 2 ^ (n - 1)) mod 2) in *.
    set (h := 2 ^ (n - 1)) in *.
    destruct (Z.eqb_spec c 1) as [E | E]; destruct (Z.eqb_spec a 0) as [E' | E'];
      simpl loc_of_shr_record; simpl round_nearest_even.
    + (* tie *)
      replace (2 ^ n <? 2 * (a + h * c)) with false by (symmetry; apply Z.ltb_ge; nia).
      replace (2 * (a + h * c) =? 2 ^ n) with true by (symmetry; apply Z.eqb_eq; nia).
      simpl. rewrite <- Z.negb_odd. destruct (Z.odd (m / 2 ^ n)); simpl; lia.
    + replace (2 ^ n <? 2 * (a + h * c)) with true by (symmetry; apply Z.ltb_lt; nia).
      simpl. lia.
    + replace (2 ^ n <? 2 * (a + h * c)) with false by (symmetry; apply Z.ltb_ge; nia).
      replace (2 * (a + h * c) =? 2 ^ n) with false by (symmetry; apply Z.eqb_neq; nia).
      simpl. lia.
    + replace (2 ^ n <? 2 * (a + h * c)) with false by (symmetry; apply Z.ltb_ge; nia).
      replace (2 * (a + h * c) =? 2 ^ n) with false by (symmetry; apply Z.eqb_neq; nia).
      simpl. lia.
Qed.

(** ** One rounding, [binary_round_aux] *)

Lemma fexp_32 (k : Z) : fexp 24 128 k = Z.max (k - 24) (-149).
Proof. reflexivity. Qed.

Lemma Zdigits2_log2 (z : Z) : 0 < z -> Zdigits2 z = Z.log2 z + 1.
Proof.
  destruct z as [ | p | p]; try lia. intros _. apply digits2_pos_log2.
Qed.

(** A canonical mantissa is not touched; only the exponent is checked. *)
Lemma round_aux_exact (s : bool) (m : positive) (e : Z) :
  canonical_mantissa 24 128 m e = true ->
  binary_round_aux 24 128 s (Zpos m) e loc_Exact
  = if e <=? 104 then S754_finite s m e else S754_infinity s.
Proof.
  unfold canonical_mantissa. intros H. apply Z.eqb_eq in H.
  unfold binary_round_aux, shr_fexp.
  change (Zdigits2 (Zpos m)) with (Zpos (digits2_pos m)).
  rewrite H, Z.sub_diag.
  change (shr (shr_record_of_loc (Zpos m) loc_Exact) e 0)
    with (Build_shr_record (Zpos m) false false, e).
  cbv beta iota.
  change (shr_m {| shr_m := Zpos m; shr_r := false; shr_s := false |}) with (Zpos m).
  change (loc_of_shr_record {| shr_m := Zpos m; shr_r := false; shr_s := false |}) with loc_Exact.
  change (round_nearest_even (Zpos m) loc_Exact) with (Zpos m).
  change (Zdigits2 (Zpos m)) with (Zpos (digits2_pos m)).
  rewrite H, Z.sub_diag.
  reflexivity.
Qed.

Lemma quotient_bounds (m : positive) :
  24 < Zpos (digits2_pos m) ->
  2 ^ 23 <= Zpos m / 2 ^ (Zpos (digits2_pos m) - 24) < 2 ^ 24.
Proof.
  intros Hd. pose proof (digits2_pos_bounds m) as [Hlo Hhi].
  set (d := Zpos (digits2_pos m)) in *.
  assert (Hp : 0 < 2 ^ (d - 24)) by (apply Z.pow_pos_nonneg; lia).
  assert (H1 : 2 ^ (d - 1) = 2 ^ 23 * 2 ^ (d - 24))
    by (rewrite <- Z.pow_add_r by lia; f_equal; lia).
  assert (H2 : 2 ^ d = 2 ^ 24 * 2 ^ (d - 24))
    by (rewrite <- Z.pow_add_r by lia; f_equal; lia).
  split.
  - apply Z.div_le_lower_bound; lia.
  - apply Z.div_lt_upper_bound; lia.
Qed.

Lemma log2_23 (z : Z) : 2 ^ 23 <= z < 2 ^ 24 -> Z.log2 z = 23.
Proof. intros H. apply Z.log2_unique; [lia | exact H]. Qed.

(** A mantissa of more than 24 digits loses the digits in excess and is
    rounded; a carry to [2 ^ 24] costs one more shift, which is exact. *)
Lemma round_aux_shift (s : bool) (m : positive) (e : Z) :
  24 < Zpos (digits2_pos m) -> -149 <= e ->
  binary_round_aux 24 128 s (Zpos m) e loc_Exact
  = let n := Zpos (digits2_pos m) - 24 in
    let m1 := Zpos m / 2 ^ n + b2z (round_up n (Zpos m)) in
    if m1 =? 2 ^ 24
    then if e + n + 1 <=? 104 then S754_finite s (2 ^ 23)%positive (e + n + 1)
         else S754_infinity s
    else if e + n <=? 104 then S754_finite s (Z.to_pos m1) (e + n)
         else S754_infinity s.
Proof.
  intros Hd He.
  pose proof (quotient_bounds m Hd) as Hq.
  unfold binary_round_aux, shr_fexp.
  change (Zdigits2 (Zpos m)) with (Zpos (digits2_pos m)).
  change (shr_record_of_loc (Zpos m) loc_Exact)
    with (Build_shr_record (Zpos m) false false).
  set (d := Zpos (digits2_pos m)) in *.
  rewrite fexp_32.
  replace (Z.max (d + e - 24) (-149) - e) with (d - 24) by lia.
  rewrite shr_spec by lia.
  cbv beta iota zeta.
  change (shr_m {| shr_m := ?a; shr_r := _; shr_s := _ |}) with a.
  rewrite rne_spec by lia.
  set (n := d - 24) in *.
  set (m1 := Zpos m / 2 ^ n + b2z (round_up n (Zpos m))).
  assert (Hm1 : 2 ^ 23 <= m1 <= 2 ^ 24)
    by (unfold m1; destruct (round_up n (Zpos m)); simpl b2z; lia).
  change (shr_record_of_loc m1 loc_Exact) with (Build_shr_record m1 false false).
  rewrite Zdigits2_log2 by lia.
  destruct (Z.eqb_spec m1 (2 ^ 24)) as [E | E].
  - rewrite E. change (Z.log2 (2 ^ 24)) with 24.
    rewrite fexp_32.
    replace (Z.max (24 + 1 + (e + n) - 24) (-149) - (e + n)) with 1 by lia.
    change (shr {| shr_m := 2 ^ 24; shr_r := false; shr_s := false |} (e + n) 1)
      with (Build_shr_record (2 ^ 23) false false, e + n + 1).
    cbv beta iota.
    reflexivity.
  - rewrite (log2_23 m1) by lia.
    rewrite fexp_32.
    replace (Z.max (23 + 1 + (e + n) - 24) (-149) - (e + n)) with 0 by lia.
    change (shr {| shr_m := m1; shr_r := false; shr_s := false |} (e + n) 0)
      with (Build_shr_record m1 false false, e + n).
    cbv beta iota.
    change (shr_m {| shr_m := m1; shr_r := false; shr_s := false |}) with m1.
    destruct m1 as [ | p | p] eqn:Em1; try lia.
    reflexivity.
Qed.

(** ** Values of canonical numbers, rounding of integers *)

Lemma overflow_eq : overflow = 2 ^ 24 * 2 ^ 253.
Proof. reflexivity. Qed.

Lemma pow2_pos (k : Z) : 0 <= k -> 0 < 2 ^ k.
Proof. intros. apply Z.pow_pos_nonneg; lia. Qed.

Lemma pow2_le (a b : Z) : 0 <= a <= b -> 2 ^ a <= 2 ^ b.
Proof. intros H. apply Z.pow_le_mono_r; lia. Qed.

(** What being canonical means for a mantissa of [d] digits. *)
Lemma canonical_cases (m : positive) (e : Z) :
  canonical_mantissa 24 128 m e = true <->
  (Zpos (digits2_pos m) = 24 /\ -149 <= e) \/ (Zpos (digits2_pos m) < 24 /\ e = -149).
Proof.
  unfold canonical_mantissa. rewrite Z.eqb_eq, fexp_32. lia.
Qed.

(** The value of a canonical finite number: below [overflow] exactly when the
    exponent is in range. *)
Lemma canonical_value (m : positive) (e : Z) :
  canonical_mantissa 24 128 m e = true ->
  0 < Zpos m * 2 ^ (e + 149) /\
  (e <= 104 -> Zpos m * 2 ^ (e + 149) < overflow) /\
  (104 < e -> overflow <= Zpos m * 2 ^ (e + 149)).
Proof.
  intros H. apply canonical_cases in H.
  pose proof (digits2_pos_bounds m) as [Hlo Hhi].
  set (d := Zpos (digits2_pos m)) in *.
  assert (He : 0 <= e + 149) by lia.
  pose proof (pow2_pos _ He) as Hp.
  assert (Hm : Zpos m < 2 ^ 24).
  { apply Z.lt_le_trans with (1 := Hhi). apply pow2_le. unfold d; lia. }
  split; [lia | split]; intros Hr.
  - rewrite overflow_eq.
    assert (2 ^ (e + 149) <= 2 ^ 253) by (apply pow2_le; lia). nia.
  - rewrite overflow_eq.
    assert (Hd : d = 24) by lia. rewrite Hd in Hlo.
    assert (2 ^ 254 <= 2 ^ (e + 149)) by (apply pow2_le; lia).
    change (2 ^ 24 * 2 ^ 253) with (2 ^ (24 - 1) * 2 ^ 254). nia.
Qed.

Lemma log2_scaled (m : positive) (k : Z) :
  0 <= k -> Z.log2 (Zpos m * 2 ^ k) + 1 = Zpos (digits2_pos m) + k.
Proof.
  intros Hk. rewrite Z.log2_mul_pow2 by lia. rewrite digits2_pos_log2. lia.
Qed.

(** Rounding leaves the value of a canonical number where it is. *)
Lemma rnd_pos_exact (m : positive) (e : Z) :
  canonical_mantissa 24 128 m e = true ->
  rnd_pos (Zpos m * 2 ^ (e + 149)) = Zpos m * 2 ^ (e + 149).
Proof.
  intros H. apply canonical_cases in H.
  assert (He : 0 <= e + 149) by lia.
  pose proof (pow2_pos _ He) as Hp.
  unfold rnd_pos, rnd_at, shift_of. rewrite log2_scaled by lia.
  replace (Z.max (Zpos (digits2_pos m) + (e + 149) - 24) 0) with (e + 149) by lia.
  unfold round_up.
  rewrite Z.div_mul, Z.mod_mul by lia.
  replace (2 ^ (e + 149) <? 2 * 0) with false by (symmetry; apply Z.ltb_ge; lia).
  replace (2 * 0 =? 2 ^ (e + 149)) with false by (symmetry; apply Z.eqb_neq; lia).
  simpl. lia.
Qed.

Lemma round_up_scaled (n k m : Z) :
  0 <= n -> 0 <= k -> round_up (n + k) (m * 2 ^ k) = round_up n m.
Proof.
  intros Hn Hk. unfold round_up.
  pose proof (pow2_pos _ Hn) as Hpn. pose proof (pow2_pos _ Hk) as Hpk.
  rewrite Z.pow_add_r by lia.
  rewrite Z.mul_mod_distr_r, Z.div_mul_cancel_r by lia.
  pose proof (Z.mod_pos_bound m (2 ^ n) Hpn) as Hb.
  set (r := m mod 2 ^ n) in *. set (a := 2 ^ n) in *. set (c := 2 ^ k) in *.
  f_equal.
  - destruct (Z.ltb_spec a (2 * r)); [apply Z.ltb_lt | apply Z.ltb_ge]; nia.
  - f_equal. destruct (Z.eqb_spec (2 * r) a); [apply Z.eqb_eq | apply Z.eqb_neq]; nia.
Qed.

Lemma rnd_pos_scaled (m : positive) (k : Z) :
  24 < Zpos (digits2_pos m) -> 0 <= k ->
  rnd_pos (Zpos m * 2 ^ k)
  = (Zpos m / 2 ^ (Zpos (digits2_pos m) - 24)
     + b2z (round_up (Zpos (digits2_pos m) - 24) (Zpos m)))
    * 2 ^ (Zpos (digits2_pos m) - 24 + k).
Proof.
  intros Hd Hk. unfold rnd_pos, rnd_at, shift_of. rewrite log2_scaled by lia.
  set (d := Zpos (digits2_pos m)) in *.
  replace (Z.max (d + k - 24) 0) with (d - 24 + k) by lia.
  rewrite round_up_scaled by lia.
  rewrite (Z.pow_add_r 2 (d - 24) k) by lia.
  rewrite Z.div_mul_cancel_r; [reflexivity | | ];
    apply Z.neq_sym, Z.lt_neq, pow2_pos; lia.
Qed.

(** ** [binary_round] and [binary_normalize] compute [rnd] *)

Lemma iter_xO_value (m d : positive) :
  Zpos (Pos.iter xO m d) = Zpos m * 2 ^ Zpos d.
Proof.
  induction d as [ | d IH] using Pos.peano_ind.
  - simpl. lia.
  - rewrite Pos.iter_succ, Pos2Z.inj_xO, IH, Pos2Z.inj_succ, Z.pow_succ_r by lia. lia.
Qed.

Lemma iter_xO_digits (m d : positive) :
  Zpos (digits2_pos (Pos.iter xO m d)) = Zpos (digits2_pos m) + Zpos d.
Proof.
  induction d as [ | d IH] using Pos.peano_ind.
  - simpl. lia.
  - rewrite Pos.iter_succ. simpl digits2_pos. rewrite Pos2Z.inj_succ, IH. lia.
Qed.

(** A finite number with a canonical mantissa, or the infinity that
    stands for it when its exponent is too large. *)
Lemma represents_canonical (s : bool) (m : positive) (e : Z) :
  canonical_mantissa 24 128 m e = true ->
  represents (if e <=? 104 then S754_finite s m e else S754_infinity s)
             (cond_Zopp s (Z.min (Zpos m * 2 ^ (e + 149)) overflow)).
Proof.
  intros H. pose proof (canonical_value m e H) as (Hpos & Hlt & Hge).
  destruct (Z.leb_spec e 104) as [Hr | Hr].
  - repeat split.
    + unfold wf, valid_binary, bounded, prec, emax. rewrite H. simpl. apply Z.leb_le.
      change (128 - 24) with 104. lia.
    + unfold F2Z. f_equal. specialize (Hlt Hr). lia.
  - repeat split. unfold F2Z. f_equal. specialize (Hge Hr). lia.
Qed.

(** [binary_round] at an exponent that is not below the least one: the
    result is a binary32 number or an infinity, of value the rounding of
    [m * 2 ^ e]. *)
Lemma binary_round_spec (s : bool) (m : positive) (e : Z) :
  -149 <= e ->
  represents (binary_round 24 128 s m e)
             (cond_Zopp s (Z.min (rnd_pos (Zpos m * 2 ^ (e + 149))) overflow)).
Proof.
  intros He. unfold binary_round, shl_align.
  set (d := Zpos (digits2_pos m)).
  rewrite fexp_32.
  destruct (Z.max (d + e - 24) (-149) - e) as [ | p | p] eqn:En.
  - (* already canonical *)
    assert (Hc : canonical_mantissa 24 128 m e = true)
      by (apply canonical_cases; fold d; lia).
    rewrite round_aux_exact by exact Hc.
    rewrite rnd_pos_exact by exact Hc.
    apply represents_canonical, Hc.
  - (* too many digits: the mantissa is rounded *)
    assert (Hd : 24 < d) by lia.
    rewrite round_aux_shift by (fold d; lia).
    rewrite rnd_pos_scaled by (fold d; lia).
    fold d. cbv zeta.
    pose proof (quotient_bounds m Hd) as Hq. fold d in Hq.
    set (n := d - 24) in *.
    set (m1 := Zpos m / 2 ^ n + b2z (round_up n (Zpos m))).
    assert (Hm1 : 2 ^ 23 <= m1 <= 2 ^ 24)
      by (unfold m1; destruct (round_up n (Zpos m)); simpl b2z; lia).
    replace (n + (e + 149)) with (e + n + 149) by lia.
    destruct (Z.eqb_spec m1 (2 ^ 24)) as [E | E].
    + rewrite E.
      replace (2 ^ 24 * 2 ^ (e + n + 149))
        with (Zpos (2 ^ 23) * 2 ^ (e + n + 1 + 149)).
      * apply represents_canonical. apply canonical_cases. left.
        split; [reflexivity | lia].
      * replace (e + n + 1 + 149) with (Z.succ (e + n + 149)) by lia.
        rewrite Z.pow_succ_r by lia.
        change (Zpos (2 ^ 23)) with (2 ^ 23). change (2 ^ 24) with (2 ^ 23 * 2). lia.
    + destruct m1 as [ | p1 | p1] eqn:Em1; try lia.
      change (Z.to_pos (Zpos p1)) with p1.
      apply represents_canonical. apply canonical_cases. left.
      split; [ | lia].
      rewrite digits2_pos_log2, (log2_23 (Zpos p1)) by lia. reflexivity.
  - (* too few digits: the mantissa is shifted left, exactly *)
    assert (Hd : d < 24) by lia.
    assert (Hp : Zpos p = e - Z.max (d + e - 24) (-149)) by lia.
    set (e' := Z.max (d + e - 24) (-149)) in *.
    assert (Hc : canonical_mantissa 24 128 (Pos.iter xO m p) e' = true).
    { apply canonical_cases. rewrite iter_xO_digits. fold d. lia. }
    rewrite round_aux_exact by exact Hc.
    replace (Zpos m * 2 ^ (e + 149))
      with (Zpos (Pos.iter xO m p) * 2 ^ (e' + 149)).
    * rewrite rnd_pos_exact by exact Hc. apply represents_canonical, Hc.
    * rewrite iter_xO_value, Hp, <- Z.mul_assoc, <- Z.pow_add_r by lia.
      f_equal. f_equal. lia.
Qed.

Lemma binary_normalize_spec (z e : Z) :
  -149 <= e ->
  represents (binary_normalize 24 128 z e false) (rnd (z * 2 ^ (e + 149))).
Proof.
  intros He. pose proof (pow2_pos (e + 149) ltac:(lia)) as Hp.
  unfold rnd. destruct z as [ | m | m]; unfold binary_normalize.
  - repeat split.
  - replace (Z.sgn (Zpos m * 2 ^ (e + 149))) with 1
      by (symmetry; apply Z.sgn_pos; lia).
    rewrite Z.abs_eq by lia. rewrite Z.mul_1_l.
    apply (binary_round_spec false m e He).
  - change (Zneg m) with (- Zpos m). rewrite Z.mul_opp_l.
    replace (Z.sgn (- (Zpos m * 2 ^ (e + 149)))) with (-1)
      by (symmetry; apply Z.sgn_neg; lia).
    rewrite Z.abs_opp, Z.abs_eq by lia.
    replace (-1 * Z.min (rnd_pos (Zpos m * 2 ^ (e + 149))) overflow)
      with (cond_Zopp true (Z.min (rnd_pos (Zpos m * 2 ^ (e + 149))) overflow))
      by (unfold cond_Zopp; lia).
    apply (binary_round_spec true m e He).
Qed.


(** ** Rounding is monotone *)

Lemma rnd_at_bounds (n z : Z) :
  0 <= n ->
  z / 2 ^ n * 2 ^ n <= rnd_at n z <= (z / 2 ^ n + 1) * 2 ^ n.
Proof.
  intros Hn. pose proof (pow2_pos n Hn) as Hp. unfold rnd_at.
  destruct (round_up n z); simpl b2z; nia.
Qed.

Lemma rnd_at_mono (n z1 z2 : Z) :
  0 <= n -> z1 <= z2 -> rnd_at n z1 <= rnd_at n z2.
Proof.
  intros Hn Hz. pose proof (pow2_pos n Hn) as Hp.
  assert (Hq : z1 / 2 ^ n <= z2 / 2 ^ n) by (apply Z.div_le_mono; lia).
  destruct (Z.eq_dec (z1 / 2 ^ n) (z2 / 2 ^ n)) as [E | E].
  - unfold rnd_at, round_up. rewrite <- E.
    pose proof (Z.div_mod z1 (2 ^ n) ltac:(lia)) as H1.
    pose proof (Z.div_mod z2 (2 ^ n) ltac:(lia)) as H2.
    rewrite <- E in H2.
    assert (Hr : z1 mod 2 ^ n <= z2 mod 2 ^ n) by lia.
    set (r1 := z1 mod 2 ^ n) in *. set (r2 := z2 mod 2 ^ n) in *.
    apply Z.mul_le_mono_nonneg_r; [lia | ].
    apply Z.add_le_mono_l.
    destruct (Z.ltb_spec (2 ^ n) (2 * r1)); destruct (Z.ltb_spec (2 ^ n) (2 * r2));
      destruct (Z.eqb_spec (2 * r1) (2 ^ n)); destruct (Z.eqb_spec (2 * r2) (2 ^ n));
      destruct (Z.odd (z1 / 2 ^ n)); simpl; lia.
  - pose proof (rnd_at_bounds n z1 Hn) as [_ H1].
    pose proof (rnd_at_bounds n z2 Hn) as [H2 _].
    nia.
Qed.

Lemma shift_of_nonneg (z : Z) : 0 <= shift_of z.
Proof. unfold shift_of. lia. Qed.

Lemma shift_quot_hi (z : Z) : 0 <= z -> z / 2 ^ shift_of z < 2 ^ 24.
Proof.
  intros Hz. pose proof (pow2_pos _ (shift_of_nonneg z)) as Hp.
  apply Z.div_lt_upper_bound; [lia | ].
  destruct (Z.eq_dec z 0) as [-> | Hz0]; [lia | ].
  pose proof (Z.log2_spec z ltac:(lia)) as [_ Hhi].
  apply Z.lt_le_trans with (1 := Hhi).
  rewrite <- Z.pow_add_r by (pose proof (shift_of_nonneg z); lia).
  apply pow2_le. pose proof (Z.log2_nonneg z). unfold shift_of. lia.
Qed.

Lemma shift_quot_lo (z : Z) : 0 < shift_of z -> 2 ^ 23 <= z / 2 ^ shift_of z.
Proof.
  intros Hs. pose proof (pow2_pos _ (shift_of_nonneg z)) as Hp.
  assert (Hl : 0 < Z.log2 z) by (unfold shift_of in Hs; lia).
  assert (Hz : 0 < z) by (apply Z.log2_pos in Hl || (destruct z; simpl in Hl; lia)).
  pose proof (Z.log2_spec z Hz) as [Hlo _].
  apply Z.div_le_lower_bound; [lia | ].
  rewrite Z.mul_comm, <- Z.pow_add_r by lia.
  apply Z.le_trans with (2 := Hlo). apply pow2_le. unfold shift_of in *. lia.
Qed.

Lemma rnd_pos_nonneg (z : Z) : 0 <= z -> 0 <= rnd_pos z.
Proof.
  intros Hz. unfold rnd_pos.
  pose proof (rnd_at_bounds (shift_of z) z (shift_of_nonneg z)) as [H _].
  pose proof (pow2_pos _ (shift_of_nonneg z)) as Hp.
  assert (0 <= z / 2 ^ shift_of z) by (apply Z.div_pos; lia). nia.
Qed.

(** Two integers that lose the same number of bits are rounded on the
    same grid; otherwise a power of two lies between their roundings. *)
Lemma rnd_pos_mono (z1 z2 : Z) :
  0 <= z1 <= z2 -> rnd_pos z1 <= rnd_pos z2.
Proof.
  intros [H1 H2]. unfold rnd_pos.
  assert (Hs : shift_of z1 <= shift_of z2).
  { unfold shift_of. pose proof (Z.log2_le_mono z1 z2 H2). lia. }
  destruct (Z.eq_dec (shift_of z1) (shift_of z2)) as [E | E].
  - rewrite E. apply rnd_at_mono; [apply shift_of_nonneg | lia].
  - pose proof (shift_of_nonneg z1) as Hn1.
    pose proof (rnd_at_bounds _ z1 Hn1) as [_ Hu].
    pose proof (rnd_at_bounds _ z2 (shift_of_nonneg z2)) as [Hl _].
    pose proof (shift_quot_hi z1 H1) as Hq1.
    pose proof (shift_quot_lo z2 ltac:(lia)) as Hq2.
    pose proof (pow2_pos _ Hn1) as Hp1.
    assert (Hpw : 2 ^ 24 * 2 ^ shift_of z1 <= 2 ^ 23 * 2 ^ shift_of z2).
    { rewrite <- !Z.pow_add_r by lia. apply pow2_le. lia. }
    pose proof (pow2_pos _ (shift_of_nonneg z2)) as Hp2.
    nia.
Qed.

Lemma rnd_mono (z1 z2 : Z) : z1 <= z2 -> rnd z1 <= rnd z2.
Proof.
  intros H. unfold rnd.
  assert (Ht : 0 < overflow) by reflexivity.
  destruct (Z.lt_trichotomy z1 0) as [N1 | [-> | P1]];
    destruct (Z.lt_trichotomy z2 0) as [N2 | [-> | P2]]; try lia.
  - rewrite !Z.sgn_neg, !Z.abs_neq by lia.
    pose proof (rnd_pos_mono (- z2) (- z1) ltac:(lia)). lia.
  - rewrite Z.sgn_neg, Z.abs_neq by lia. simpl Z.sgn.
    pose proof (rnd_pos_nonneg (- z1) ltac:(lia)). lia.
  - rewrite Z.sgn_neg, Z.sgn_pos, Z.abs_neq, Z.abs_eq by lia.
    pose proof (rnd_pos_nonneg (- z1) ltac:(lia)).
    pose proof (rnd_pos_nonneg z2 ltac:(lia)). lia.
  - rewrite (Z.sgn_pos z2), (Z.abs_eq z2) by lia. simpl Z.sgn.
    pose proof (rnd_pos_nonneg z2 ltac:(lia)). lia.
  - rewrite !Z.sgn_pos, !Z.abs_eq by lia.
    pose proof (rnd_pos_mono z1 z2 ltac:(lia)). lia.
Qed.

(** ** Rounding leaves binary32 numbers where they are *)

Lemma rnd_opp (z : Z) : rnd (- z) = - rnd z.
Proof. unfold rnd. rewrite Z.sgn_opp, Z.abs_opp. lia. Qed.

Lemma rnd_of_pos (v : Z) : 0 < v -> rnd v = Z.min (rnd_pos v) overflow.
Proof. intros H. unfold rnd. rewrite Z.sgn_pos, Z.abs_eq by lia. lia. Qed.

Lemma bounded_canonical (m : positive) (e : Z) :
  bounded 24 128 m e = true ->
  canonical_mantissa 24 128 m e = true /\ e <= 104.
Proof.
  unfold bounded. intros H. apply andb_true_iff in H as [H1 H2].
  split; [exact H1 | ]. apply Z.leb_le in H2. exact H2.
Qed.

Lemma bounded_value (m : positive) (e : Z) :
  bounded 24 128 m e = true -> 0 < Zpos m * 2 ^ (e + 149) < overflow.
Proof.
  intros H. apply bounded_canonical in H as [Hc He].
  pose proof (canonical_value m e Hc) as (H1 & H2 & _). split; auto.
Qed.

Lemma rnd_F2Z (f : float) : wf f = true -> rnd (F2Z f) = F2Z f.
Proof.
  intros H. destruct f as [s | s | | s m e].
  - reflexivity.
  - destruct s; vm_compute; reflexivity.
  - reflexivity.
  - unfold wf, valid_binary, prec, emax in H.
    pose proof (bounded_value m e H) as Hv.
    apply bounded_canonical in H as [Hc He].
    assert (E : rnd (Zpos m * 2 ^ (e + 149)) = Zpos m * 2 ^ (e + 149)).
    { rewrite rnd_of_pos, rnd_pos_exact by (exact Hc || lia). lia. }
    unfold F2Z. destruct s; unfold cond_Zopp.
    + rewrite rnd_opp, E. reflexivity.
    + exact E.
Qed.

(** ** The order of binary32 is the order of the values *)

(** Canonical numbers are ordered first by exponent, then by mantissa. *)
Lemma canonical_exponent_lt (m1 m2 : positive) (e1 e2 : Z) :
  canonical_mantissa 24 128 m1 e1 = true ->
  canonical_mantissa 24 128 m2 e2 = true ->
  e1 < e2 ->
  Zpos m1 * 2 ^ (e1 + 149) < Zpos m2 * 2 ^ (e2 + 149).
Proof.
  intros H1 H2 He. apply canonical_cases in H1, H2.
  pose proof (digits2_pos_bounds m1) as [_ Hhi].
  pose proof (digits2_pos_bounds m2) as [Hlo _].
  assert (Hd2 : Zpos (digits2_pos m2) = 24) by lia.
  rewrite Hd2 in Hlo.
  assert (Hm1 : Zpos m1 < 2 ^ 24).
  { apply Z.lt_le_trans with (1 := Hhi). apply pow2_le. lia. }
  pose proof (pow2_pos (e1 + 149) ltac:(lia)) as Hp1.
  assert (Hp : 2 ^ Z.succ (e1 + 149) <= 2 ^ (e2 + 149)) by (apply pow2_le; lia).
  rewrite Z.pow_succ_r in Hp by lia.
  change (2 ^ 24) with (2 ^ (24 - 1) * 2) in Hm1. nia.
Qed.

Lemma compare_F2Z (a b : float) :
  wf a = true -> wf b = true -> is_nan a = false -> is_nan b = false ->
  SFcompare a b = Some (F2Z a ?= F2Z b).
Proof.
  intros Wa Wb Na Nb.
  assert (Ht : 0 < overflow) by reflexivity.
  destruct a as [sa | sa | | sa ma ea]; try discriminate Na;
    destruct b as [sb | sb | | sb mb eb]; try discriminate Nb;
    unfold wf, valid_binary, prec, emax in Wa, Wb;
    try (pose proof (bounded_value ma ea Wa) as Va);
    try (pose proof (bounded_value mb eb Wb) as Vb);
    unfold SFcompare, F2Z, cond_Zopp.
  - reflexivity.
  - destruct sb; reflexivity.
  - destruct sb; f_equal; symmetry;
      [apply Z.compare_gt_iff | apply Z.compare_lt_iff]; lia.
  - destruct sa; reflexivity.
  - destruct sa, sb; reflexivity.
  - destruct sa, sb; f_equal; symmetry;
      first [apply Z.compare_lt_iff; lia | apply Z.compare_gt_iff; lia].
  - destruct sa; f_equal; symmetry;
      [apply Z.compare_lt_iff | apply Z.compare_gt_iff]; lia.
  - destruct sa, sb; f_equal; symmetry;
      first [apply Z.compare_lt_iff; lia | apply Z.compare_gt_iff; lia].
  - apply bounded_canonical in Wa as [Ca _], Wb as [Cb _].
    set (va := Zpos ma * 2 ^ (ea + 149)) in *.
    set (vb := Zpos mb * 2 ^ (eb + 149)) in *.
    assert (Hlt : ea < eb -> va < vb)
      by (intros; apply canonical_exponent_lt; assumption).
    assert (Hgt : eb < ea -> vb < va)
      by (intros; apply canonical_exponent_lt; assumption).
    assert (Heq : ea = eb -> (va ?= vb) = (ma ?= mb)%positive).
    { intros E. unfold va, vb. rewrite E.
      symmetry. change (ma ?= mb)%positive with (Zpos ma ?= Zpos mb).
      apply Zmult_compare_compat_r. apply Z.lt_gt, pow2_pos.
      apply canonical_cases in Cb. lia. }
    change (Pos.compare_cont Eq ma mb) with (ma ?= mb)%positive.
    f_equal. destruct sa, sb.
    + rewrite Z.compare_opp.
      destruct (Z.compare_spec ea eb) as [E | E | E].
      * rewrite (Z.compare_antisym va vb), Heq by exact E. reflexivity.
      * symmetry. apply Z.compare_gt_iff. auto.
      * symmetry. apply Z.compare_lt_iff. auto.
    + symmetry. apply Z.compare_lt_iff. lia.
    + symmetry. apply Z.compare_gt_iff. lia.
    + destruct (Z.compare_spec ea eb) as [E | E | E].
      * rewrite Heq by exact E. reflexivity.
      * symmetry. apply Z.compare_lt_iff. auto.
      * symmetry. apply Z.compare_gt_iff. auto.
Qed.

(** ** Addition and subtraction *)

Lemma shl_align_value (m : positive) (e ez : Z) :
  ez <= e -> -149 <= ez ->
  Zpos (fst (shl_align m e ez)) * 2 ^ (ez + 149) = Zpos m * 2 ^ (e + 149).
Proof.
  intros H He. unfold shl_align.
  destruct (ez - e) as [ | p | p] eqn:E; try lia.
  - replace ez with e by lia. reflexivity.
  - simpl fst. rewrite iter_xO_value, <- Z.mul_assoc, <- Z.pow_add_r by lia.
    f_equal. f_equal. lia.
Qed.

Lemma cond_Zopp_mul (s : bool) (a c : Z) :
  cond_Zopp s a * c = cond_Zopp s (a * c).
Proof. destruct s; simpl; lia. Qed.

Lemma wf_finite_exponent (s : bool) (m : positive) (e : Z) :
  wf (S754_finite s m e) = true -> -149 <= e.
Proof.
  unfold wf, valid_binary, prec, emax. intros H.
  apply bounded_canonical in H as [H _]. apply canonical_cases in H. lia.
Qed.

Lemma represents_self (f : float) :
  wf f = true -> is_nan f = false -> represents f (rnd (F2Z f)).
Proof. intros W N. repeat split; auto. symmetry. apply rnd_F2Z, W. Qed.

(** The sum of two numbers (zeros included, infinities excluded) is the
    rounding of the exact sum. *)
Lemma add_spec (a b : float) :
  wf a = true -> wf b = true -> is_finite a = true -> is_finite b = true ->
  represents (add a b) (rnd (F2Z a + F2Z b)).
Proof.
  intros Wa Wb Fa Fb.
  destruct a as [sa | sa | | sa ma ea]; try discriminate Fa;
    destruct b as [sb | sb | | sb mb eb]; try discriminate Fb.
  - destruct sa, sb; repeat split.
  - simpl add. change (F2Z (S754_zero sa)) with 0. rewrite Z.add_0_l.
    apply represents_self; auto.
  - simpl add. change (F2Z (S754_zero sb)) with 0. rewrite Z.add_0_r.
    apply represents_self; auto.
  - pose proof (wf_finite_exponent _ _ _ Wa) as Ea.
    pose proof (wf_finite_exponent _ _ _ Wb) as Eb.
    unfold add, SFadd. cbv zeta.
    set (ez := Z.min ea eb).
    replace (F2Z (S754_finite sa ma ea) + F2Z (S754_finite sb mb eb))
      with ((cond_Zopp sa (Zpos (fst (shl_align ma ea ez)))
             + cond_Zopp sb (Zpos (fst (shl_align mb eb ez)))) * 2 ^ (ez + 149)).
    + apply binary_normalize_spec. unfold ez. lia.
    + rewrite Z.mul_add_distr_r, !cond_Zopp_mul.
      rewrite !shl_align_value by (unfold ez; lia). reflexivity.
Qed.

Lemma sub_spec (a b : float) :
  wf a = true -> wf b = true -> is_finite a = true -> is_finite b = true ->
  represents (sub a b) (rnd (F2Z a - F2Z b)).
Proof.
  intros Wa Wb Fa Fb.
  destruct a as [sa | sa | | sa ma ea]; try discriminate Fa;
    destruct b as [sb | sb | | sb mb eb]; try discriminate Fb.
  - destruct sa, sb; repeat split.
  - simpl sub. change (F2Z (S754_zero sa)) with 0. rewrite Z.sub_0_l.
    replace (- F2Z (S754_finite sb mb eb)) with (F2Z (S754_finite (negb sb) mb eb))
      by (unfold F2Z; destruct sb; simpl; lia).
    apply represents_self; auto.
  - simpl sub. change (F2Z (S754_zero sb)) with 0. rewrite Z.sub_0_r.
    apply represents_self; auto.
  - pose proof (wf_finite_exponent _ _ _ Wa) as Ea.
    pose proof (wf_finite_exponent _ _ _ Wb) as Eb.
    unfold sub, SFsub. cbv zeta.
    set (ez := Z.min ea eb).
    replace (F2Z (S754_finite sa ma ea) - F2Z (S754_finite sb mb eb))
      with ((cond_Zopp sa (Zpos (fst (shl_align ma ea ez)))
             - cond_Zopp sb (Zpos (fst (shl_align mb eb ez)))) * 2 ^ (ez + 149)).
    + apply binary_normalize_spec. unfold ez. lia.
    + rewrite Z.mul_sub_distr_r, !cond_Zopp_mul.
      rewrite !shl_align_value by (unfold ez; lia). reflexivity.
Qed.

Lemma le_F2Z (a b : float) :
  wf a = true -> wf b = true -> is_nan a = false -> is_nan b = false ->
  le a b = true <-> F2Z a <= F2Z b.
Proof.
  intros Wa Wb Na Nb. unfold le, SFleb. rewrite compare_F2Z by assumption.
  destruct (Z.compare_spec (F2Z a) (F2Z b)); split; intros; try lia; try reflexivity; discriminate.
Qed.

Lemma le_F2Z_false (a b : float) :
  wf a = true -> wf b = true -> is_nan a = false -> is_nan b = false ->
  le a b = false <-> F2Z b < F2Z a.
Proof.
  intros Wa Wb Na Nb. unfold le, SFleb. rewrite compare_F2Z by assumption.
  destruct (Z.compare_spec (F2Z a) (F2Z b)); split; intros; try lia; try reflexivity; discriminate.
Qed.


(** ** Multiplication by [-1] *)

(** [v * -1] only flips the sign of [v]: the product of the mantissas is
    shifted back by the 23 bits of the mantissa of [1], exactly. *)
Lemma mul_m1 (v : float) : wf v = true -> mul v (of_int (-1)) = SFopp v.
Proof.
  intros W. destruct v as [s | s | | s m e]; try (destruct s; reflexivity).
  - reflexivity.
  - unfold wf, valid_binary, prec, emax in W.
    apply bounded_canonical in W as [Hc He].
    pose proof Hc as Hd. apply canonical_cases in Hd.
    change (mul (S754_finite s m e) (of_int (-1)))
      with (binary_round_aux 24 128 (xorb s true) (Zpos (m * 8388608))
              (e + -23) loc_Exact).
    replace (m * 8388608)%positive with (Pos.iter xO m 23)
      by (rewrite Pos.mul_comm; reflexivity).
    unfold binary_round_aux, shr_fexp.
    change (Zdigits2 (Zpos (Pos.iter xO m 23)))
      with (Zpos (digits2_pos (Pos.iter xO m 23))).
    rewrite iter_xO_digits, fexp_32.
    replace (Z.max (Zpos (digits2_pos m) + 23 + (e + -23) - 24) (-149) - (e + -23))
      with 23 by lia.
    change (shr_record_of_loc (Zpos (Pos.iter xO m 23)) loc_Exact)
      with (Build_shr_record (Zpos (Pos.iter xO m 23)) false false).
    rewrite shr_spec by lia.
    rewrite iter_xO_value.
    assert (Hq : Zpos m * 2 ^ 23 / 2 ^ 23 = Zpos m) by (apply Z.div_mul; lia).
    assert (Hr : rbit (Zpos m * 2 ^ 23) 23 = false).
    { unfold rbit. change (23 =? 0) with false. cbv iota.
      change (2 ^ 23) with (2 * 2 ^ (23 - 1)).
      rewrite Z.mul_assoc, Z.div_mul by lia.
      rewrite Z.mul_comm, Z.odd_mul. reflexivity. }
    assert (Hs : sbit (Zpos m * 2 ^ 23) 23 = false).
    { unfold sbit. change (23 =? 0) with false. cbv iota.
      change (2 ^ 23) with (2 * 2 ^ (23 - 1)).
      rewrite Z.mul_assoc, Z.mod_mul by lia. reflexivity. }
    rewrite Hq, Hr, Hs. cbv beta iota.
    change (shr_m {| shr_m := Zpos m; shr_r := false; shr_s := false |})
      with (Zpos m).
    change (loc_of_shr_record {| shr_m := Zpos m; shr_r := false; shr_s := false |})
      with loc_Exact.
    change (round_nearest_even (Zpos m) loc_Exact) with (Zpos m).
    change (Zdigits2 (Zpos m)) with (Zpos (digits2_pos m)).
    rewrite fexp_32.
    replace (Z.max (Zpos (digits2_pos m) + (e + -23 + 23) - 24) (-149)
             - (e + -23 + 23)) with 0 by lia.
    change (shr (shr_record_of_loc (Zpos m) loc_Exact) (e + -23 + 23) 0)
      with (Build_shr_record (Zpos m) false false, e + -23 + 23).
    cbv beta iota.
    change (shr_m {| shr_m := Zpos m; shr_r := false; shr_s := false |})
      with (Zpos m).
    cbv iota.
    replace (e + -23 + 23) with e by lia.
    change (128 - 24) with 104.
    replace (e <=? 104) with true by (symmetry; apply Z.leb_le; lia).
    destruct s; reflexivity.
Qed.

(** * The physics step *)

(** ** What [UpdateBall] writes in each field *)

(** Every test of the step, one case each. *)
Ltac case_tests :=
  repeat match goal with |- context [if ?c then _ else _] => destruct c end.

Lemma move_position_y (b : Ball) :
  y (position (move b)) = add (y (position b)) (y (velocity b)).
Proof. reflexivity. Qed.

Lemma move_position_x (b : Ball) :
  x (position (move b)) = add (x (position b)) (x (velocity b)).
Proof. reflexivity. Qed.

Lemma hits_y_bounce_x (b : Ball) (W H : Z) :
  hits_y (bounce_x W b) H = hits_y b H.
Proof. unfold bounce_x. destruct (hits_x b W); reflexivity. Qed.

Lemma UpdateBall_position_x (b : Ball) (W H : Z) :
  x (position (UpdateBall b W H)) = add (x (position b)) (x (velocity b)).
Proof.
  unfold UpdateBall, bounce_y, bounce_x.
  destruct (hits_x (move b) W); case_tests; reflexivity.
Qed.

Lemma UpdateBall_velocity_x (b : Ball) (W H : Z) :
  x (velocity (UpdateBall b W H))
  = if hits_x (move b) W then mul (x (velocity b)) (of_int (-1))
    else x (velocity b).
Proof.
  unfold UpdateBall, bounce_y, bounce_x.
  destruct (hits_x (move b) W); case_tests; reflexivity.
Qed.

Lemma UpdateBall_velocity_y (b : Ball) (W H : Z) :
  y (velocity (UpdateBall b W H))
  = if hits_y (move b) H then mul (y (velocity b)) (of_int (-1))
    else y (velocity b).
Proof.
  unfold UpdateBall. unfold bounce_y at 1. rewrite hits_y_bounce_x.
  unfold bounce_x.
  destruct (hits_y (move b) H); destruct (hits_x (move b) W); case_tests;
    reflexivity.
Qed.

(** The new [position.y]: the floor is tested first, then the ceiling. *)
Lemma UpdateBall_position_y (b : Ball) (W H : Z) :
  y (position (UpdateBall b W H))
  = let y' := add (y (position b)) (y (velocity b)) in
    if ge (add y' (radius b)) (of_int H) then sub (of_int H) (radius b)
    else if le (sub y' (radius b)) (of_int 0) then radius b
    else y'.
Proof.
  unfold UpdateBall. unfold bounce_y. rewrite hits_y_bounce_x.
  unfold hits_y. unfold bounce_x.
  destruct (hits_x (move b) W); cbn [position velocity radius move
    set_position_x set_position_y set_velocity_x set_velocity_y x y];
    destruct (ge (add (add (y (position b)) (y (velocity b))) (radius b)) (of_int H));
    destruct (le (sub (add (y (position b)) (y (velocity b))) (radius b)) (of_int 0));
    reflexivity.
Qed.

Lemma UpdateBall_radius (b : Ball) (W H : Z) :
  radius (UpdateBall b W H) = radius b.
Proof.
  unfold UpdateBall, bounce_y, bounce_x.
  destruct (hits_x (move b) W); case_tests; reflexivity.
Qed.

Lemma UpdateBall_color (b : Ball) (W H : Z) :
  color (UpdateBall b W H) = color b.
Proof.
  unfold UpdateBall, bounce_y, bounce_x.
  destruct (hits_x (move b) W); case_tests; reflexivity.
Qed.

(** ** Conversions of integers, order, closure *)

Lemma of_int_spec (k : Z) : represents (of_int k) (rnd (k * 2 ^ 149)).
Proof. exact (binary_normalize_spec k 0 ltac:(lia)). Qed.

Lemma rnd_lt_inv (a b : Z) : rnd a < rnd b -> a < b.
Proof.
  intros H. destruct (Z.lt_ge_cases a b) as [L | G]; [exact L | ].
  pose proof (rnd_mono b a G). lia.
Qed.

Lemma represents_finite (f : float) (v : Z) :
  represents f v -> - overflow < v < overflow -> is_finite f = true.
Proof.
  intros (_ & N & E) Hv. destruct f as [s | s | | s m e]; try reflexivity.
  - exfalso. unfold F2Z in E. destruct s; unfold cond_Zopp in E; lia.
  - discriminate N.
Qed.

(** Every [int] converts to a finite number. *)
Lemma of_int_finite (k : Z) :
  - 2 ^ 31 <= k <= 2 ^ 31 -> is_finite (of_int k) = true.
Proof.
  intros Hk. apply represents_finite with (1 := of_int_spec k).
  assert (Hu : 0 < 2 ^ 149) by reflexivity.
  assert (Hlo : rnd (- 2 ^ 31 * 2 ^ 149) <= rnd (k * 2 ^ 149))
    by (apply rnd_mono; nia).
  assert (Hhi : rnd (k * 2 ^ 149) <= rnd (2 ^ 31 * 2 ^ 149))
    by (apply rnd_mono; nia).
  assert (E1 : rnd (2 ^ 31 * 2 ^ 149) = 2 ^ 180) by (vm_compute; reflexivity).
  assert (E2 : rnd (- 2 ^ 31 * 2 ^ 149) = - 2 ^ 180) by (vm_compute; reflexivity).
  assert (E3 : 2 ^ 180 < overflow) by reflexivity.
  lia.
Qed.

Lemma le_refl (a : float) : is_nan a = false -> le a a = true.
Proof.
  intros N. destruct a as [s | s | | s m e]; try discriminate N.
  - reflexivity.
  - destruct s; reflexivity.
  - unfold le, SFleb, SFcompare. rewrite Z.compare_refl.
    change (Pos.compare_cont Eq m m) with (m ?= m)%positive.
    rewrite Pos.compare_refl. destruct s; reflexivity.
Qed.

Lemma le_not_nan (a b : float) :
  le a b = true -> is_nan a = false /\ is_nan b = false.
Proof.
  destruct a as [sa | sa | | sa ma ea]; destruct b as [sb | sb | | sb mb eb];
    intros H; try discriminate H; split; reflexivity.
Qed.

Lemma le_pinf (a : float) :
  is_nan a = false -> le a (S754_infinity false) = true.
Proof.
  intros N. destruct a as [s | s | | s m e]; try discriminate N;
    try destruct s; reflexivity.
Qed.

Lemma le_ninf (a : float) :
  is_nan a = false -> le (S754_infinity true) a = true.
Proof.
  intros N. destruct a as [s | s | | s m e]; try discriminate N;
    try destruct s; reflexivity.
Qed.

Lemma wf_add (a b : float) : wf a = true -> wf b = true -> wf (add a b) = true.
Proof.
  intros Wa Wb.
  destruct (is_finite a) eqn:Fa; destruct (is_finite b) eqn:Fb.
  - apply (add_spec a b Wa Wb Fa Fb).
  - destruct a as [sa | sa | | sa ma ea]; try discriminate Fa;
      destruct b as [sb | sb | | sb mb eb]; try discriminate Fb; reflexivity.
  - destruct a as [sa | sa | | sa ma ea]; try discriminate Fa;
      destruct b as [sb | sb | | sb mb eb]; try discriminate Fb; reflexivity.
  - destruct a as [sa | sa | | sa ma ea]; try discriminate Fa;
      destruct b as [sb | sb | | sb mb eb]; try discriminate Fb;
      try reflexivity; destruct sa, sb; reflexivity.
Qed.

(** ** The ball that touches neither the floor nor the ceiling *)

(** The two tests of line 34 are on rounded sums, the conclusion is on
    the exact position: rounding is monotone and leaves [screenHeight]
    and [0] where they are. *)
Lemma no_hit_inside (y' r : float) (H : Z) :
  wf y' = true -> wf r = true ->
  is_nan y' = false -> is_nan r = false ->
  - 2 ^ 31 <= H <= 2 ^ 31 ->
  ge (add y' r) (of_int H) = false ->
  le (sub y' r) (of_int 0) = false ->
  le r y' = true /\ le y' (sub (of_int H) r) = true.
Proof.
  intros Wy Wr Ny Nr HH C1 C2.
  pose proof (of_int_spec H) as RH.
  pose proof (of_int_finite H HH) as FH.
  destruct (is_finite r) eqn:Fr; destruct (is_finite y') eqn:Fy.
  - (* the case of two numbers *)
    pose proof (add_spec y' r Wy Wr Fy Fr) as (Wa & Na & Ea).
    pose proof (sub_spec y' r Wy Wr Fy Fr) as (Ws & Ns & Es).
    destruct RH as (WH & NH & EH).
    pose proof (sub_spec (of_int H) r WH Wr FH Fr) as (Wt & Nt & Et).
    unfold ge in C1.
    apply le_F2Z_false in C1; try assumption.
    apply le_F2Z_false in C2; try assumption; try reflexivity.
    rewrite Ea, <- (rnd_F2Z (of_int H) WH) in C1. apply rnd_lt_inv in C1.
    change (F2Z (of_int 0)) with (rnd 0) in C2. rewrite Es in C2.
    apply rnd_lt_inv in C2.
    split; apply le_F2Z; try assumption; [lia | ].
    rewrite Et, <- (rnd_F2Z y' Wy). apply rnd_mono. lia.
  - (* an infinite position is clamped *)
    exfalso. destruct y' as [sy | [ | ] | | sy my ey]; try discriminate.
    + destruct r as [sr | sr | | sr mr er]; try discriminate Fr;
        simpl in C2; discriminate C2.
    + destruct r as [sr | sr | | sr mr er]; try discriminate Fr;
        change (ge (S754_infinity false) (of_int H) = false) in C1;
        unfold ge in C1; rewrite le_pinf in C1 by apply RH; discriminate C1.
  - destruct r as [sr | [ | ] | | sr mr er]; try discriminate.
    + (* radius -infinity *)
      split; [apply le_ninf, Ny | ].
      destruct (of_int H) as [sh | sh | | sh mh eh]; try discriminate FH;
        apply le_pinf, Ny.
    + (* radius +infinity *)
      exfalso. destruct y' as [sy | sy | | sy my ey]; try discriminate Fy;
        change (ge (S754_infinity false) (of_int H) = false) in C1;
        unfold ge in C1; rewrite le_pinf in C1 by apply RH; discriminate C1.
  - destruct r as [sr | [ | ] | | sr mr er]; try discriminate;
      destruct y' as [sy | [ | ] | | sy my ey]; try discriminate.
    + split; [reflexivity | ].
      destruct (of_int H) as [sh | sh | | sh mh eh]; try discriminate FH;
        reflexivity.
    + split; [reflexivity | ].
      destruct (of_int H) as [sh | sh | | sh mh eh]; try discriminate FH;
        reflexivity.
    + exfalso. change (ge (S754_infinity false) (of_int H) = false) in C1.
      unfold ge in C1. rewrite le_pinf in C1 by apply RH. discriminate C1.
Qed.

(** ** One step *)

Lemma mul_opp_opp (v : float) : mul (SFopp v) (SFopp v) = mul v v.
Proof. destruct v as [s | s | | s m e]; try destruct s; reflexivity. Qed.

Lemma abs_opp (v : float) : abs (SFopp v) = abs v.
Proof. destruct v; reflexivity. Qed.

(** The ball of the reflection example of the specification, and the one
    of its clamp example. *)
Example UpdateBall_left_wall :
  UpdateBall (ball_at 5 100 (-3) 0) 800 450 = ball_at 2 100 3 0.
Proof. reflexivity. Qed.

Example UpdateBall_floor :
  UpdateBall (ball_at 100 435 0 4) 800 450 = ball_at 100 430 0 (-4).
Proof. reflexivity. Qed.

(** C3. [UpdateBall] first adds the velocity to the position; then, when
    [position.x + radius >= width] or [position.x - radius <= 0], it
    negates [velocity.x], and [position.x] stays the sum, unclamped.  The
    ball at (5, 100) of radius 20 and velocity (-3, 0), in a viewport of
    width 800 and of any height, ends with [velocity.x = 3] and
    [position.x = 2].  ([wf] says that [velocity.x] holds a binary32
    number, as every [float] does; the multiplication by [-1] is then
    the negation [SFopp].) *)
Theorem UpdateBall_horizontal_reflection :
  (forall (b : Ball) (W H : Z),
      wf (x (velocity b)) = true ->
      let moved := add (x (position b)) (x (velocity b)) in
      x (position (UpdateBall b W H)) = moved /\
      x (velocity (UpdateBall b W H))
      = if ge (add moved (radius b)) (of_int W)
           || le (sub moved (radius b)) (of_int 0)
        then SFopp (x (velocity b))
        else x (velocity b))
  /\ (forall H : Z,
         let b := mkBall (mkVector2 (of_int 5) (of_int 100))
                         (mkVector2 (of_int (-3)) (of_int 0)) (of_int 20) RED in
         x (velocity (UpdateBall b 800 H)) = of_int 3 /\
         x (position (UpdateBall b 800 H)) = of_int 2).
Proof.
  split.
  - intros b W H Wv moved. split.
    + apply UpdateBall_position_x.
    + rewrite UpdateBall_velocity_x. unfold hits_x.
      rewrite move_position_x. fold moved.
      change (radius (move b)) with (radius b).
      rewrite mul_m1 by exact Wv. reflexivity.
  - intros H b. split.
    + rewrite UpdateBall_velocity_x. reflexivity.
    + rewrite UpdateBall_position_x. reflexivity.
Qed.

Lemma UpdateBall_horizontal_reflection_witness :
  wf (x (velocity (ball_at 5 100 (-3) 0))) = true /\
  x (position (UpdateBall (ball_at 5 100 (-3) 0) 800 450)) = of_int 2 /\
  x (velocity (UpdateBall (ball_at 5 100 (-3) 0) 800 450)) = of_int 3.
Proof.
  split; [reflexivity | ].
  exact (proj1 UpdateBall_horizontal_reflection (ball_at 5 100 (-3) 0) 800 450
           eq_refl).
Defined.

(** C4. After the position update, when [position.y + radius >= height]
    or [position.y - radius <= 0], [velocity.y] is negated and
    [position.y] becomes exactly [height - radius] if the first test
    holds, [radius] otherwise; when neither holds both are left as they
    are.  The ball at (100, 435) of radius 20 and velocity (0, 4), in a
    viewport of height 450 and of any width, moves to 439, where
    [439 + 20 >= 450], and ends with [velocity.y = -4] and
    [position.y = 430].  When both tests hold the floor wins, as in the
    code. *)
Theorem UpdateBall_vertical_reflection :
  (forall (b : Ball) (W H : Z),
      wf (y (velocity b)) = true ->
      let moved := add (y (position b)) (y (velocity b)) in
      let floor := ge (add moved (radius b)) (of_int H) in
      let ceiling := le (sub moved (radius b)) (of_int 0) in
      (floor || ceiling = true ->
       y (velocity (UpdateBall b W H)) = SFopp (y (velocity b)) /\
       y (position (UpdateBall b W H))
       = if floor then sub (of_int H) (radius b) else radius b) /\
      (floor || ceiling = false ->
       y (velocity (UpdateBall b W H)) = y (velocity b) /\
       y (position (UpdateBall b W H)) = moved))
  /\ (forall W : Z,
         let b := mkBall (mkVector2 (of_int 100) (of_int 435))
                         (mkVector2 (of_int 0) (of_int 4)) (of_int 20) RED in
         y (position (move b)) = of_int 439 /\
         ge (add (of_int 439) (of_int 20)) (of_int 450) = true /\
         y (velocity (UpdateBall b W 450)) = of_int (-4) /\
         y (position (UpdateBall b W 450)) = of_int 430).
Proof.
  split.
  - intros b W H Wv moved floor ceiling.
    assert (Hh : hits_y (move b) H = floor || ceiling) by reflexivity.
    split; intros Hc.
    + split.
      * rewrite UpdateBall_velocity_y, Hh, Hc. apply mul_m1, Wv.
      * rewrite UpdateBall_position_y. cbv zeta. fold moved. fold floor.
        fold ceiling. destruct floor; [reflexivity | ].
        simpl in Hc. rewrite Hc. reflexivity.
    + apply orb_false_iff in Hc as [Hf Hg]. split.
      * rewrite UpdateBall_velocity_y, Hh, Hf, Hg. reflexivity.
      * rewrite UpdateBall_position_y. cbv zeta. fold moved. fold floor.
        fold ceiling. rewrite Hf, Hg. reflexivity.
  - intros W b. split; [reflexivity | split; [reflexivity | split] ].
    + rewrite UpdateBall_velocity_y. reflexivity.
    + rewrite UpdateBall_position_y. reflexivity.
Qed.

Lemma UpdateBall_vertical_reflection_witness :
  wf (y (velocity (ball_at 100 435 0 4))) = true /\
  y (velocity (UpdateBall (ball_at 100 435 0 4) 800 450)) = of_int (-4) /\
  y (position (UpdateBall (ball_at 100 435 0 4) 800 450)) = of_int 430.
Proof.
  split; [reflexivity | ].
  exact (proj1 (proj1 UpdateBall_vertical_reflection (ball_at 100 435 0 4)
                  800 450 eq_refl) eq_refl).
Defined.

(** C5. [UpdateBall] leaves the absolute value of each component of the
    velocity as it was, and so the speed [sqrt (vx * vx + vy * vy)]: a
    reflection only flips the sign of one component.  This holds of
    every pair of binary32 numbers, infinities and NaN included. *)
Theorem UpdateBall_speed_conserved (b : Ball) (W H : Z) :
  wf (x (velocity b)) = true ->
  wf (y (velocity b)) = true ->
  abs (x (velocity (UpdateBall b W H))) = abs (x (velocity b)) /\
  abs (y (velocity (UpdateBall b W H))) = abs (y (velocity b)) /\
  speed (velocity (UpdateBall b W H)) = speed (velocity b).
Proof.
  intros Wx Wy. unfold speed.
  rewrite UpdateBall_velocity_x, UpdateBall_velocity_y.
  rewrite !mul_m1 by assumption.
  destruct (hits_x (move b) W); destruct (hits_y (move b) H);
    rewrite ?abs_opp, ?mul_opp_opp; repeat split; reflexivity.
Qed.

Lemma UpdateBall_speed_conserved_witness :
  wf (x (velocity (ball_at 5 435 (-3) 4))) = true /\
  wf (y (velocity (ball_at 5 435 (-3) 4))) = true /\
  abs (x (velocity (UpdateBall (ball_at 5 435 (-3) 4) 800 450))) = of_int 3 /\
  abs (y (velocity (UpdateBall (ball_at 5 435 (-3) 4) 800 450))) = of_int 4 /\
  speed (velocity (UpdateBall (ball_at 5 435 (-3) 4) 800 450)) = of_int 5.
Proof.
  split; [reflexivity | split; [reflexivity | ] ].
  exact (UpdateBall_speed_conserved (ball_at 5 435 (-3) 4) 800 450
           eq_refl eq_refl).
Defined.

Lemma frames_balls_radius (n : nat) (balls : list Ball) :
  map radius (frames_balls n balls) = map radius balls.
Proof.
  revert balls. induction n as [ | n IH]; intros balls; [reflexivity | ].
  simpl frames_balls. rewrite IH. unfold update_all. rewrite map_map.
  apply map_ext. intros b. apply UpdateBall_radius.
Qed.

Lemma frames_balls_color (n : nat) (balls : list Ball) :
  map color (frames_balls n balls) = map color balls.
Proof.
  revert balls. induction n as [ | n IH]; intros balls; [reflexivity | ].
  simpl frames_balls. rewrite IH. unfold update_all. rewrite map_map.
  apply map_ext. intros b. apply UpdateBall_color.
Qed.

(** C8. [UpdateBall] leaves the radius and the colour of the ball as
    they are; so after any number of frames every ball of the array has
    the radius and the colour it was created with. *)
Theorem UpdateBall_keeps_radius_and_color :
  (forall (b : Ball) (W H : Z),
      radius (UpdateBall b W H) = radius b /\
      color (UpdateBall b W H) = color b)
  /\ (forall (n : nat) (balls : list Ball),
         map radius (frames_balls n balls) = map radius balls /\
         map color (frames_balls n balls) = map color balls).
Proof.
  split.
  - intros b W H. split; [apply UpdateBall_radius | apply UpdateBall_color].
  - intros n balls. split; [apply frames_balls_radius | apply frames_balls_color].
Qed.

(** ** Containment *)

(** In the viewport of the program the ball of the program ends the
    step between the ceiling and the floor, as soon as its new position
    is a number: on the floor, on the ceiling, or where no test fired. *)
Lemma UpdateBall_y_ok (b : Ball) (W : Z) :
  radius b = BALL_RADIUS ->
  wf (y (position b)) = true ->
  wf (y (velocity b)) = true ->
  is_nan (add (y (position b)) (y (velocity b))) = false ->
  position_y_ok (y (position (UpdateBall b W SCREEN_HEIGHT))) = true.
Proof.
  intros Hr Wp Wv Ny.
  rewrite UpdateBall_position_y. cbv zeta. rewrite Hr.
  destruct (ge (add (add (y (position b)) (y (velocity b))) BALL_RADIUS)
               (of_int SCREEN_HEIGHT)) eqn:C1; [reflexivity | ].
  destruct (le (sub (add (y (position b)) (y (velocity b))) BALL_RADIUS)
               (of_int 0)) eqn:C2; [reflexivity | ].
  destruct (no_hit_inside (add (y (position b)) (y (velocity b))) BALL_RADIUS
              SCREEN_HEIGHT) as [Hlo Hhi];
    try assumption; try reflexivity.
  - apply wf_add; assumption.
  - unfold SCREEN_HEIGHT. lia.
  - unfold position_y_ok.
    change (of_int 20) with BALL_RADIUS.
    change (of_int 430) with (sub (of_int SCREEN_HEIGHT) BALL_RADIUS).
    rewrite Hlo, Hhi. reflexivity.
Qed.


(** In a viewport of height 30 the ball of radius 20 is put at 10, below
    its radius; and a position that is not a number stays so, outside
    every interval. *)
Lemma vertical_containment_needs_room_and_numbers :
  (0 < 30 /\
   y (position (UpdateBall (ball_at 100 15 0 0) 800 30)) = of_int 10 /\
   le (radius (ball_at 100 15 0 0))
      (y (position (UpdateBall (ball_at 100 15 0 0) 800 30))) = false)
  /\ (0 < 450 /\
      y (position (UpdateBall
                     (mkBall (mkVector2 (of_int 100) S754_nan)
                             (mkVector2 (of_int 0) (of_int 0)) BALL_RADIUS RED)
                     800 450)) = S754_nan /\
      le BALL_RADIUS S754_nan = false).
Proof. repeat split. Qed.

(** C2, amended.  For every ball and every viewport height that is an
    [int], if the radius is at most [height - radius] (there is room for
    the ball) and [position.y + velocity.y] is a number, then after
    [UpdateBall] [radius <= position.y <= height - radius], the bounds
    being the binary32 numbers that the code computes.  The hypotheses
    [wf] say that the fields hold binary32 numbers, as every [float]
    does. *)
Theorem UpdateBall_vertical_containment (b : Ball) (W H : Z) :
  - 2 ^ 31 <= H < 2 ^ 31 ->
  wf (y (position b)) = true ->
  wf (y (velocity b)) = true ->
  wf (radius b) = true ->
  is_nan (add (y (position b)) (y (velocity b))) = false ->
  le (radius b) (sub (of_int H) (radius b)) = true ->
  le (radius b) (y (position (UpdateBall b W H))) = true /\
  le (y (position (UpdateBall b W H))) (sub (of_int H) (radius b)) = true.
Proof.
  intros HH Wp Wv Wr Ny Room.
  pose proof (le_not_nan _ _ Room) as [Nr Nt].
  rewrite UpdateBall_position_y. cbv zeta.
  destruct (ge (add (add (y (position b)) (y (velocity b))) (radius b))
               (of_int H)) eqn:C1.
  - (* on the floor *)
    split; [exact Room | apply le_refl, Nt].
  - destruct (le (sub (add (y (position b)) (y (velocity b))) (radius b))
                 (of_int 0)) eqn:C2.
    + (* on the ceiling *)
      split; [apply le_refl, Nr | exact Room].
    + (* no test fired *)
      apply no_hit_inside; try assumption; [apply wf_add; assumption | lia].
Qed.

Lemma UpdateBall_vertical_containment_witness :
  - 2 ^ 31 <= 450 < 2 ^ 31 /\
  wf (y (position (ball_at 100 435 0 4))) = true /\
  wf (y (velocity (ball_at 100 435 0 4))) = true /\
  wf (radius (ball_at 100 435 0 4)) = true /\
  is_nan (add (y (position (ball_at 100 435 0 4)))
              (y (velocity (ball_at 100 435 0 4)))) = false /\
  le (radius (ball_at 100 435 0 4))
     (sub (of_int 450) (radius (ball_at 100 435 0 4))) = true /\
  le (of_int 20) (y (position (UpdateBall (ball_at 100 435 0 4) 800 450))) = true /\
  le (y (position (UpdateBall (ball_at 100 435 0 4) 800 450))) (of_int 430) = true.
Proof.
  split; [lia | ].
  split; [reflexivity | split; [reflexivity | split; [reflexivity | split;
    [reflexivity | split; [reflexivity | ] ] ] ] ].
  exact (UpdateBall_vertical_containment (ball_at 100 435 0 4) 800 450
           ltac:(lia) eq_refl eq_refl eq_refl eq_refl eq_refl).
Defined.

(** ** Two steps in a row, horizontally *)


(** Rounding alone can do the same to a ball that starts inside, one
    unit in the last place from the wall: with [x = 20 + 2^-19] and
    [vx = -(2 + 2^-20)], the two moves round to 18 and then to 20. *)
Example horizontal_reflection_twice_by_rounding :
  let b := mkBall (mkVector2 (S754_finite false 10485761 (-19)) (of_int 100))
                  (mkVector2 (S754_finite true 8388612 (-22)) (of_int 0))
                  BALL_RADIUS RED in
  wf (x (position b)) = true /\ wf (x (velocity b)) = true /\
  hits_x b SCREEN_WIDTH = false /\
  hits_x (move b) SCREEN_WIDTH = true /\
  x (position (UpdateBall b SCREEN_WIDTH SCREEN_HEIGHT)) = of_int 18 /\
  hits_x (move (UpdateBall b SCREEN_WIDTH SCREEN_HEIGHT)) SCREEN_WIDTH = true /\
  x (position (UpdateBall (UpdateBall b SCREEN_WIDTH SCREEN_HEIGHT)
                 SCREEN_WIDTH SCREEN_HEIGHT)) = of_int 20.
Proof. repeat split. Qed.

(** ** Intervals of small integers *)

Lemma rnd_small_int (k : Z) :
  - 2 ^ 24 < k < 2 ^ 24 -> rnd (k * 2 ^ 149) = k * 2 ^ 149.
Proof.
  assert (Hpos : forall j, 0 < j < 2 ^ 24 -> rnd (j * 2 ^ 149) = j * 2 ^ 149).
  { intros j Hj.
    assert (Hu : 0 < 2 ^ 149) by reflexivity.
    rewrite rnd_of_pos by lia.
    assert (Hl : Z.log2 j < 24) by (apply Z.log2_lt_pow2; lia).
    pose proof (Z.log2_nonneg j) as Hl0.
    assert (E : rnd_pos (j * 2 ^ 149) = j * 2 ^ 149).
    { unfold rnd_pos, rnd_at, shift_of, round_up.
      rewrite Z.log2_mul_pow2 by lia.
      replace (Z.max (149 + Z.log2 j + 1 - 24) 0) with (Z.log2 j + 126) by lia.
      set (n := Z.log2 j + 126).
      assert (Hs : j * 2 ^ 149 = j * 2 ^ (149 - n) * 2 ^ n).
      { rewrite <- Z.mul_assoc, <- Z.pow_add_r by (unfold n; lia).
        f_equal. f_equal. lia. }
      pose proof (pow2_pos n ltac:(unfold n; lia)) as Hn.
      rewrite Hs, Z.div_mul, Z.mod_mul by lia.
      replace (2 ^ n <? 2 * 0) with false by (symmetry; apply Z.ltb_ge; lia).
      replace (2 * 0 =? 2 ^ n) with false by (symmetry; apply Z.eqb_neq; lia).
      simpl b2z. lia. }
    rewrite E.
    assert (j * 2 ^ 149 < overflow).
    { change overflow with (2 ^ 128 * 2 ^ 149).
      assert (2 ^ 24 < 2 ^ 128) by reflexivity. nia. }
    lia. }
  intros Hk. destruct (Z.lt_trichotomy k 0) as [N | [-> | P]].
  - replace (k * 2 ^ 149) with (- (- k * 2 ^ 149)) by lia.
    rewrite rnd_opp, Hpos by lia. reflexivity.
  - reflexivity.
  - apply Hpos. lia.
Qed.

Lemma between_make (f : float) (v lo hi : Z) :
  represents f v -> - 2 ^ 24 < lo -> hi < 2 ^ 24 ->
  lo * 2 ^ 149 <= v <= hi * 2 ^ 149 -> between f lo hi.
Proof.
  intros R Hlo Hhi Hv. pose proof R as (W & N & E).
  assert (Hu : 0 < 2 ^ 149) by reflexivity.
  assert (Ho : 2 ^ 24 * 2 ^ 149 < overflow) by reflexivity.
  repeat split; try lia; try assumption.
  apply represents_finite with (1 := R). nia.
Qed.

Lemma between_not_nan (f : float) (lo hi : Z) :
  between f lo hi -> is_nan f = false.
Proof. intros (_ & F & _). destruct f; try discriminate F; reflexivity. Qed.

Lemma between_of_int (k : Z) :
  - 2 ^ 24 < k < 2 ^ 24 -> between (of_int k) k k.
Proof.
  intros Hk. apply between_make with (v := rnd (k * 2 ^ 149)); try lia.
  - apply of_int_spec.
  - rewrite rnd_small_int by lia. lia.
Qed.

Lemma between_add (a b : float) (la ha lb hb : Z) :
  between a la ha -> between b lb hb ->
  - 2 ^ 24 < la + lb -> ha + hb < 2 ^ 24 ->
  between (add a b) (la + lb) (ha + hb).
Proof.
  intros (Wa & Fa & Ha) (Wb & Fb & Hb) Hlo Hhi.
  assert (Hu : 0 < 2 ^ 149) by reflexivity.
  apply between_make with (v := rnd (F2Z a + F2Z b)); try lia.
  - apply add_spec; assumption.
  - rewrite <- (rnd_small_int (la + lb)), <- (rnd_small_int (ha + hb)) by nia.
    split; apply rnd_mono; lia.
Qed.

Lemma between_sub (a b : float) (la ha lb hb : Z) :
  between a la ha -> between b lb hb ->
  - 2 ^ 24 < la - hb -> ha - lb < 2 ^ 24 ->
  between (sub a b) (la - hb) (ha - lb).
Proof.
  intros (Wa & Fa & Ha) (Wb & Fb & Hb) Hlo Hhi.
  assert (Hu : 0 < 2 ^ 149) by reflexivity.
  apply between_make with (v := rnd (F2Z a - F2Z b)); try lia.
  - apply sub_spec; assumption.
  - rewrite <- (rnd_small_int (la - hb)), <- (rnd_small_int (ha - lb)) by nia.
    split; apply rnd_mono; lia.
Qed.

Lemma F2Z_opp (v : float) : F2Z (SFopp v) = - F2Z v.
Proof.
  destruct v as [s | s | | s m e]; try reflexivity;
    destruct s; unfold SFopp, F2Z, cond_Zopp, negb; lia.
Qed.

Lemma F2Z_abs (v : float) : F2Z (abs v) = Z.abs (F2Z v).
Proof.
  assert (Ho : 0 < overflow) by reflexivity.
  destruct v as [s | s | | s m e]; try reflexivity;
    destruct s; unfold abs, SFabs, F2Z, cond_Zopp; lia.
Qed.

Lemma between_opp (v : float) (lo hi : Z) :
  between v lo hi -> between (SFopp v) (- hi) (- lo).
Proof.
  intros (W & F & Hv).
  repeat split.
  - destruct v; exact W.
  - destruct v; exact F.
  - rewrite F2Z_opp. lia.
  - rewrite F2Z_opp. lia.
Qed.

(** Two numbers in disjoint intervals are in the order of the intervals. *)
Lemma between_le_false (a b : float) (la ha lb hb : Z) :
  between a la ha -> between b lb hb -> hb < la -> le a b = false.
Proof.
  intros Ba Bb Hlt.
  pose proof (between_not_nan _ _ _ Ba) as Na.
  pose proof (between_not_nan _ _ _ Bb) as Nb.
  destruct Ba as (Wa & _ & Ha). destruct Bb as (Wb & _ & Hb).
  apply le_F2Z_false; try assumption.
  assert (Hu : 0 < 2 ^ 149) by reflexivity. nia.
Qed.

Lemma between_of_le (p : float) (lo hi : Z) :
  wf p = true -> - 2 ^ 24 < lo -> hi < 2 ^ 24 -> lo <= hi ->
  le (of_int lo) p = true -> le p (of_int hi) = true ->
  between p lo hi.
Proof.
  intros W Hlo Hhi Hle L1 L2.
  pose proof (le_not_nan _ _ L1) as [_ N].
  destruct (between_of_int lo ltac:(lia)) as (Wl & Fl & Vl).
  destruct (between_of_int hi ltac:(lia)) as (Wh & Fh & Vh).
  apply le_F2Z in L1; try assumption; try (destruct (of_int lo); try discriminate Fl; reflexivity).
  apply le_F2Z in L2; try assumption; try (destruct (of_int hi); try discriminate Fh; reflexivity).
  apply between_make with (v := F2Z p); try lia.
  repeat split; assumption.
Qed.

(** A velocity whose absolute value is in [lo, hi] points one way or
    the other. *)
Lemma between_of_abs (v : float) (lo hi : Z) :
  wf v = true -> 0 < lo -> hi < 2 ^ 24 -> lo <= hi ->
  le (of_int lo) (abs v) = true -> le (abs v) (of_int hi) = true ->
  between v lo hi \/ between v (- hi) (- lo).
Proof.
  intros W Hlo Hhi Hle L1 L2.
  assert (Wa : wf (abs v) = true) by (destruct v; exact W).
  pose proof (between_of_le (abs v) lo hi Wa ltac:(lia) Hhi Hle L1 L2)
    as (_ & Fa & Ha).
  assert (F : is_finite v = true) by (destruct v; exact Fa).
  assert (R : represents v (F2Z v)).
  { repeat split; [exact W | destruct v; try discriminate F; reflexivity]. }
  rewrite F2Z_abs in Ha.
  assert (Hu : 0 < 2 ^ 149) by reflexivity.
  destruct (Z.le_gt_cases 0 (F2Z v)) as [P | N].
  - left. apply between_make with (v := F2Z v); try lia. exact R.
  - right. apply between_make with (v := F2Z v); try lia. exact R.
Qed.

(** ** Two steps in a row, vertically *)

(** A ball that starts below the floor and moves up is clamped to the
    floor twice in a row. *)
Lemma vertical_reflection_twice_from_outside :
  speed_ok (y (velocity (ball_at 100 500 3 (-3)))) = true /\
  hits_y (move (ball_at 100 500 3 (-3))) SCREEN_HEIGHT = true /\
  UpdateBall (ball_at 100 500 3 (-3)) SCREEN_WIDTH SCREEN_HEIGHT
  = ball_at 103 430 3 3 /\
  hits_y (move (ball_at 103 430 3 3)) SCREEN_HEIGHT = true /\
  UpdateBall (ball_at 103 430 3 3) SCREEN_WIDTH SCREEN_HEIGHT
  = ball_at 106 430 3 (-3).
Proof. repeat split. Qed.

(** A ball of radius 20 whose next position is strictly between 20 and
    430 passes both tests of line 34. *)
Lemma no_hit_between (b : Ball) (lo hi : Z) :
  radius b = BALL_RADIUS ->
  between (y (position b)) lo hi -> 20 < lo -> hi < 430 ->
  hits_y b SCREEN_HEIGHT = false.
Proof.
  intros Hr B Hlo Hhi. unfold hits_y. rewrite Hr.
  pose proof (between_of_int 20 ltac:(lia)) as B20.
  pose proof (between_of_int 450 ltac:(lia)) as B450.
  pose proof (between_of_int 0 ltac:(lia)) as B0.
  assert (Ba : between (add (y (position b)) BALL_RADIUS) (lo + 20) (hi + 20))
    by (apply between_add; try assumption; lia).
  assert (Bs : between (sub (y (position b)) BALL_RADIUS) (lo - 20) (hi - 20))
    by (apply between_sub; try assumption; lia).
  apply orb_false_iff. split.
  - unfold ge. apply (between_le_false _ _ _ _ _ _ B450 Ba). lia.
  - apply (between_le_false _ _ _ _ _ _ Bs B0). lia.
Qed.

(** C10, amended.  For every ball of radius 20 in the viewport of height
    450 whose [position.y] is within [20, 430] and whose velocity
    satisfies [2 <= |velocity.y| <= 8]: if [UpdateBall] satisfies the
    vertical reflection condition, it clamps [position.y] to 430 or to
    20, and the immediately following [UpdateBall] does not satisfy the
    condition, so that [velocity.y] is not negated on two consecutive
    frames. *)
Theorem vertical_no_double_bounce (b : Ball) (W : Z) :
  radius b = BALL_RADIUS ->
  wf (y (position b)) = true ->
  wf (y (velocity b)) = true ->
  speed_ok (y (velocity b)) = true ->
  position_y_ok (y (position b)) = true ->
  hits_y (move b) SCREEN_HEIGHT = true ->
  (y (position (UpdateBall b W SCREEN_HEIGHT)) = of_int 430
   \/ y (position (UpdateBall b W SCREEN_HEIGHT)) = of_int 20) /\
  y (velocity (UpdateBall b W SCREEN_HEIGHT)) = SFopp (y (velocity b)) /\
  hits_y (move (UpdateBall b W SCREEN_HEIGHT)) SCREEN_HEIGHT = false /\
  y (velocity (UpdateBall (UpdateBall b W SCREEN_HEIGHT) W SCREEN_HEIGHT))
  = y (velocity (UpdateBall b W SCREEN_HEIGHT)).
Proof.
  intros Hr Wp Wv Sv Sp Hit.
  apply andb_true_iff in Sv as [S1 S2]. apply andb_true_iff in Sp as [P1 P2].
  pose proof (between_of_le _ 20 430 Wp ltac:(lia) ltac:(lia) ltac:(lia) P1 P2)
    as Bp.
  pose proof (between_of_int 20 ltac:(lia)) as B20.
  pose proof (between_of_int 430 ltac:(lia)) as B430.
  pose proof (between_of_int 450 ltac:(lia)) as B450.
  pose proof (between_of_int 0 ltac:(lia)) as B0.
  set (b1 := UpdateBall b W SCREEN_HEIGHT).
  assert (Hr1 : radius (move b1) = BALL_RADIUS)
    by (change (radius (move b1)) with (radius b1); unfold b1;
        rewrite UpdateBall_radius; exact Hr).
  assert (Hv1 : y (velocity b1) = SFopp (y (velocity b)))
    by (unfold b1; rewrite UpdateBall_velocity_y, Hit; apply mul_m1, Wv).
  assert (Hy1 : y (position b1)
                = if ge (add (add (y (position b)) (y (velocity b))) BALL_RADIUS)
                        (of_int SCREEN_HEIGHT)
                  then of_int 430 else of_int 20).
  { unfold b1. rewrite UpdateBall_position_y. cbv zeta. rewrite Hr.
    unfold hits_y in Hit. rewrite move_position_y in Hit.
    change (radius (move b)) with (radius b) in Hit. rewrite Hr in Hit.
    destruct (ge (add (add (y (position b)) (y (velocity b))) BALL_RADIUS)
                 (of_int SCREEN_HEIGHT)) eqn:C1; [reflexivity | ].
    rewrite orb_false_l in Hit. rewrite Hit. reflexivity. }
  assert (Settled : hits_y (move b1) SCREEN_HEIGHT = false).
  { unfold hits_y in Hit. rewrite move_position_y in Hit.
    change (radius (move b)) with (radius b) in Hit. rewrite Hr in Hit.
    destruct (between_of_abs _ 2 8 Wv ltac:(lia) ltac:(lia) ltac:(lia) S1 S2)
      as [Bv | Bv].
    - (* moving down: the ceiling is out of reach, the floor was hit *)
      assert (Bm : between (add (y (position b)) (y (velocity b)))
                           (20 + 2) (430 + 8))
        by (apply between_add; try assumption; lia).
      assert (Bs : between (sub (add (y (position b)) (y (velocity b)))
                                BALL_RADIUS) (20 + 2 - 20) (430 + 8 - 20))
        by (apply between_sub; try assumption; lia).
      rewrite (between_le_false _ _ _ _ _ _ Bs B0), orb_false_r in Hit by lia.
      rewrite Hit in Hy1.
      apply (no_hit_between (move b1) (430 + - 8) (430 + - 2)); try lia;
        [exact Hr1 | ].
      rewrite move_position_y, Hy1, Hv1.
      apply between_add; try lia; [exact B430 | exact (between_opp _ _ _ Bv)].
    - (* moving up: the floor is out of reach, the ceiling was hit *)
      assert (Bm : between (add (y (position b)) (y (velocity b)))
                           (20 + - 8) (430 + - 2))
        by (apply between_add; try assumption; lia).
      assert (Ba : between (add (add (y (position b)) (y (velocity b)))
                                BALL_RADIUS) (20 + - 8 + 20) (430 + - 2 + 20))
        by (apply between_add; try assumption; lia).
      assert (C1 : ge (add (add (y (position b)) (y (velocity b))) BALL_RADIUS)
                      (of_int SCREEN_HEIGHT) = false)
        by exact (between_le_false _ _ _ _ _ _ B450 Ba ltac:(lia)).
      rewrite C1 in Hy1.
      apply (no_hit_between (move b1) (20 + 2) (20 + 8)); try lia;
        [exact Hr1 | ].
      rewrite move_position_y, Hy1, Hv1.
      apply between_add; try lia; [exact B20 | exact (between_opp _ _ _ Bv)]. }
  split; [ | split; [exact Hv1 | split; [exact Settled | ] ] ].
  - rewrite Hy1.
    destruct (ge (add (add (y (position b)) (y (velocity b))) BALL_RADIUS)
                 (of_int SCREEN_HEIGHT)); [left | right]; reflexivity.
  - rewrite UpdateBall_velocity_y. fold b1. rewrite Settled. reflexivity.
Qed.

Lemma vertical_no_double_bounce_witness :
  radius (ball_at 100 428 3 4) = BALL_RADIUS /\
  wf (y (position (ball_at 100 428 3 4))) = true /\
  wf (y (velocity (ball_at 100 428 3 4))) = true /\
  speed_ok (y (velocity (ball_at 100 428 3 4))) = true /\
  position_y_ok (y (position (ball_at 100 428 3 4))) = true /\
  hits_y (move (ball_at 100 428 3 4)) SCREEN_HEIGHT = true /\
  (y (position (UpdateBall (ball_at 100 428 3 4) 800 SCREEN_HEIGHT)) = of_int 430
   \/ y (position (UpdateBall (ball_at 100 428 3 4) 800 SCREEN_HEIGHT)) = of_int 20) /\
  y (velocity (UpdateBall (ball_at 100 428 3 4) 800 SCREEN_HEIGHT)) = of_int (-4) /\
  hits_y (move (UpdateBall (ball_at 100 428 3 4) 800 SCREEN_HEIGHT)) SCREEN_HEIGHT
  = false /\
  y (velocity (UpdateBall (UpdateBall (ball_at 100 428 3 4) 800 SCREEN_HEIGHT)
                 800 SCREEN_HEIGHT)) = of_int (-4).
Proof.
  split; [reflexivity | split; [reflexivity | split; [reflexivity | split;
    [reflexivity | split; [reflexivity | split; [reflexivity | ] ] ] ] ] ].
  exact (vertical_no_double_bounce (ball_at 100 428 3 4) 800
           eq_refl eq_refl eq_refl eq_refl eq_refl eq_refl).
Defined.

(** * The initializer *)

Lemma Zrange_In (lo hi k : Z) : lo <= k <= hi -> In k (Zrange lo hi).
Proof.
  intros Hk. unfold Zrange. apply in_map_iff.
  exists (Z.to_nat (k - lo)). split; [lia | ].
  apply in_seq. lia.
Qed.

(** Each check below runs the code of the initializer on every integer
    that the generator may answer. *)
Lemma position_x_range (k : Z) :
  20 <= k <= 780 -> position_x_ok (of_int k) = true.
Proof.
  intros Hk.
  assert (H : forallb (fun k => position_x_ok (of_int k)) (Zrange 20 780) = true)
    by (vm_compute; reflexivity).
  rewrite forallb_forall in H. apply H, Zrange_In, Hk.
Qed.

Lemma position_y_range (k : Z) :
  20 <= k <= 430 -> position_y_ok (of_int k) = true.
Proof.
  intros Hk.
  assert (H : forallb (fun k => position_y_ok (of_int k)) (Zrange 20 430) = true)
    by (vm_compute; reflexivity).
  rewrite forallb_forall in H. apply H, Zrange_In, Hk.
Qed.

Lemma speed_range (k flip : Z) :
  200 <= k <= 800 ->
  speed_ok (random_sign flip (div (of_int k) (of_int 100))) = true.
Proof.
  intros Hk.
  assert (H : forallb (fun k => speed_ok (div (of_int k) (of_int 100))
                               && speed_ok (mul (div (of_int k) (of_int 100))
                                                (of_int (-1))))
                      (Zrange 200 800) = true)
    by (vm_compute; reflexivity).
  rewrite forallb_forall in H. specialize (H k (Zrange_In _ _ _ Hk)).
  apply andb_true_iff in H as [H1 H2].
  unfold random_sign. destruct (flip =? 0); assumption.
Qed.

Section InitializerBounds.

Variable rng : Type.
Variable GetRandomValue : Z -> Z -> rng -> Z * rng.

(** What is assumed of raylib: an answer within the inclusive range
    asked for. *)
Hypothesis GetRandomValue_range :
  forall (lo hi : Z) (g : rng),
    lo <= hi -> lo <= fst (GetRandomValue lo hi g) <= hi.

Lemma init_ball_ok (g : rng) :
  initial_ok (fst (init_ball rng GetRandomValue g)) = true.
Proof.
  unfold init_ball.
  change (to_int BALL_RADIUS) with 20.
  change (to_int (mul BALL_MIN_SPEED (of_int 100))) with 200.
  change (to_int (mul BALL_MAX_SPEED (of_int 100))) with 800.
  change (SCREEN_WIDTH - 20) with 780.
  change (SCREEN_HEIGHT - 20) with 430.
  pose proof (GetRandomValue_range 20 780 g ltac:(lia)) as Hx.
  destruct (GetRandomValue 20 780 g) as [rx g1]. simpl fst in Hx.
  pose proof (GetRandomValue_range 20 430 g1 ltac:(lia)) as Hy.
  destruct (GetRandomValue 20 430 g1) as [ry g2]. simpl fst in Hy.
  pose proof (GetRandomValue_range 200 800 g2 ltac:(lia)) as Hsx.
  destruct (GetRandomValue 200 800 g2) as [sx g3]. simpl fst in Hsx.
  pose proof (GetRandomValue_range 200 800 g3 ltac:(lia)) as Hsy.
  destruct (GetRandomValue 200 800 g3) as [sy g4]. simpl fst in Hsy.
  destruct (GetRandomValue 0 1 g4) as [fx g5].
  destruct (GetRandomValue 0 1 g5) as [fy g6].
  destruct (GetRandomValue 0 (numColors - 1) g6) as [ci g7].
  unfold initial_ok. cbn [fst position velocity x y].
  rewrite position_x_range, position_y_range, !speed_range by assumption.
  reflexivity.
Qed.

Lemma init_balls_ok (n : nat) (g : rng) :
  Forall (fun b => initial_ok b = true)
         (fst (init_balls rng GetRandomValue n g)).
Proof.
  revert g. induction n as [ | n IH]; intros g; simpl init_balls.
  - constructor.
  - pose proof (init_ball_ok g) as Hb.
    destruct (init_ball rng GetRandomValue g) as [b g1]. simpl fst in Hb.
    specialize (IH g1).
    destruct (init_balls rng GetRandomValue n g1) as [bs g2].
    simpl fst in *. constructor; assumption.
Qed.

Lemma init_balls_length (n : nat) (g : rng) :
  List.length (fst (init_balls rng GetRandomValue n g)) = n.
Proof.
  revert g. induction n as [ | n IH]; intros g; simpl init_balls.
  - reflexivity.
  - destruct (init_ball rng GetRandomValue g) as [b g1].
    specialize (IH g1).
    destruct (init_balls rng GetRandomValue n g1) as [bs g2].
    simpl in *. congruence.
Qed.

(** C7. When the random generator answers within the inclusive range
    it is asked for, each of the 2500 balls that the initializer
    produces has [position.x] in [20, 780], [position.y] in [20, 430],
    and [|velocity.x|] and [|velocity.y|] in [2.0, 8.0]. *)
Theorem initializer_bounds (g : rng) :
  List.length (fst (init_balls rng GetRandomValue NUM_BALLS g)) = NUM_BALLS /\
  Forall (fun b =>
            (le (of_int 20) (x (position b)) = true /\
             le (x (position b)) (of_int 780) = true) /\
            (le (of_int 20) (y (position b)) = true /\
             le (y (position b)) (of_int 430) = true) /\
            (le BALL_MIN_SPEED (abs (x (velocity b))) = true /\
             le (abs (x (velocity b))) BALL_MAX_SPEED = true) /\
            (le BALL_MIN_SPEED (abs (y (velocity b))) = true /\
             le (abs (y (velocity b))) BALL_MAX_SPEED = true))
         (fst (init_balls rng GetRandomValue NUM_BALLS g)).
Proof.
  split; [apply init_balls_length | ].
  eapply Forall_impl; [ | apply init_balls_ok].
  intros b Hb. unfold initial_ok, position_x_ok, position_y_ok, speed_ok in Hb.
  rewrite !andb_true_iff in Hb. tauto.
Qed.

End InitializerBounds.

Lemma initializer_bounds_witness :
  (forall (lo hi : Z) (g : unit), lo <= hi -> lo <= fst (lowest lo hi g) <= hi) /\
  List.length (fst (init_balls unit lowest NUM_BALLS tt)) = NUM_BALLS /\
  Forall (fun b =>
            (le (of_int 20) (x (position b)) = true /\
             le (x (position b)) (of_int 780) = true) /\
            (le (of_int 20) (y (position b)) = true /\
             le (y (position b)) (of_int 430) = true) /\
            (le BALL_MIN_SPEED (abs (x (velocity b))) = true /\
             le (abs (x (velocity b))) BALL_MAX_SPEED = true) /\
            (le BALL_MIN_SPEED (abs (y (velocity b))) = true /\
             le (abs (y (velocity b))) BALL_MAX_SPEED = true))
         (fst (init_balls unit lowest NUM_BALLS tt)).
Proof.
  split.
  - intros lo hi g H. unfold lowest, fst. lia.
  - exact (initializer_bounds unit lowest
             (fun lo hi g H => conj (Z.le_refl lo) H) tt).
Defined.

(** * The main loop *)

Lemma main_loop_until_close (n : nat) (rest : list bool) (balls : list Ball)
    (tr : list Event) :
  main_loop (repeat false n ++ true :: rest) balls tr
  = Some (frames_balls n balls, tr ++ frames_trace n balls, rest).
Proof.
  revert balls tr. induction n as [ | n IH]; intros balls tr.
  - simpl. rewrite app_nil_r. reflexivity.
  - simpl main_loop. simpl frames_balls. simpl frames_trace.
    rewrite IH, <- app_assoc. reflexivity.
Qed.

(** Any sequence of answers with a [true] is some [false]s, the first
    [true], and answers that are never asked for. *)
Lemma first_close (closes : list bool) :
  In true closes ->
  exists (n : nat) (rest : list bool), closes = repeat false n ++ true :: rest.
Proof.
  induction closes as [ | c closes IH]; intros Hin; [destruct Hin | ].
  destruct c.
  - exists O, closes. reflexivity.
  - destruct Hin as [Hc | Hin]; [discriminate Hc | ].
    destruct (IH Hin) as (n & rest & E).
    exists (S n), rest. simpl. rewrite E. reflexivity.
Qed.

Lemma main_loop_never_closed (n : nat) (balls : list Ball) (tr : list Event) :
  main_loop (repeat false n) balls tr = None.
Proof.
  revert balls tr. induction n as [ | n IH]; intros balls tr; simpl; auto.
Qed.

(** C9. When [WindowShouldClose] answers [true] for the first time, after
    [n] answers [false], the program has run exactly [n] physics steps
    and [n] render steps; it runs no other, asks nothing more, calls
    [CloseWindow] and returns 0.  Whatever the answers, a run that
    returns returns 0, and a run returns as soon as one answer is
    [true]. *)
Theorem main_closes_with_exit_code_0 :
  forall (rng : Type) (GetRandomValue : Z -> Z -> rng -> Z * rng) (g : rng),
    (forall (n : nat) (rest : list bool),
        main GetRandomValue g (repeat false n ++ true :: rest)
        = Some (mkOutcome 0
                  (frames_balls n (fst (init_balls rng GetRandomValue NUM_BALLS g)))
                  ([InitWindow SCREEN_WIDTH SCREEN_HEIGHT "Raylib C - Bouncing Ball";
                    SetTargetFPS TARGET_FPS]
                   ++ frames_trace n (fst (init_balls rng GetRandomValue NUM_BALLS g))
                   ++ [CloseWindow])
                  rest))
    /\ (forall (closes : list bool) (out : Outcome),
           main GetRandomValue g closes = Some out -> exit_code out = 0)
    /\ (forall closes : list bool,
           In true closes -> exists out, main GetRandomValue g closes = Some out).
Proof.
  intros rng GetRandomValue g.
  assert (Run : forall (n : nat) (rest : list bool),
             main GetRandomValue g (repeat false n ++ true :: rest)
             = Some (mkOutcome 0
                  (frames_balls n (fst (init_balls rng GetRandomValue NUM_BALLS g)))
                  ([InitWindow SCREEN_WIDTH SCREEN_HEIGHT "Raylib C - Bouncing Ball";
                    SetTargetFPS TARGET_FPS]
                   ++ frames_trace n (fst (init_balls rng GetRandomValue NUM_BALLS g))
                   ++ [CloseWindow])
                  rest)).
  { intros n rest. unfold main.
    destruct (init_balls rng GetRandomValue NUM_BALLS g) as [balls g'].
    rewrite main_loop_until_close. simpl fst. rewrite <- app_assoc. reflexivity. }
  split; [exact Run | split].
  - intros closes out. unfold main.
    destruct (init_balls rng GetRandomValue NUM_BALLS g) as [balls g'].
    destruct (main_loop closes balls _) as [[[bs tr] rest] | ]; intros E.
    + injection E as <-. reflexivity.
    + discriminate E.
  - intros closes Hin. destruct (first_close closes Hin) as (n & rest & ->).
    eexists. apply Run.
Qed.

(** * Every ball, at every frame *)

Lemma wf_opp (v : float) : wf (SFopp v) = wf v.
Proof. destruct v; reflexivity. Qed.

Lemma wf_of_int (k : Z) : wf (of_int k) = true.
Proof. apply of_int_spec. Qed.

Lemma flip_ok (c : bool) (v : float) :
  wf v = true -> speed_ok v = true ->
  wf (if c then mul v (of_int (-1)) else v) = true /\
  speed_ok (if c then mul v (of_int (-1)) else v) = true.
Proof.
  intros W S. destruct c; [ | split; assumption].
  rewrite mul_m1 by exact W. unfold speed_ok. rewrite wf_opp, abs_opp.
  split; assumption.
Qed.

(** The sum of a position between the walls and of a velocity of the
    program is a number. *)
Lemma move_y_not_nan (b : Ball) :
  wf (y (position b)) = true -> wf (y (velocity b)) = true ->
  position_y_ok (y (position b)) = true -> speed_ok (y (velocity b)) = true ->
  is_nan (add (y (position b)) (y (velocity b))) = false.
Proof.
  intros Wp Wv Sp Sv.
  apply andb_true_iff in Sv as [S1 S2]. apply andb_true_iff in Sp as [P1 P2].
  pose proof (between_of_le _ 20 430 Wp ltac:(lia) ltac:(lia) ltac:(lia) P1 P2)
    as Bp.
  destruct (between_of_abs _ 2 8 Wv ltac:(lia) ltac:(lia) ltac:(lia) S1 S2)
    as [Bv | Bv].
  - apply (between_not_nan _ (20 + 2) (430 + 8)).
    apply between_add; try assumption; lia.
  - apply (between_not_nan _ (20 + - (8)) (430 + - (2))).
    apply between_add; try assumption; lia.
Qed.

Lemma ball_ok_UpdateBall (b : Ball) (W : Z) :
  ball_ok b -> ball_ok (UpdateBall b W SCREEN_HEIGHT).
Proof.
  intros (Hr & Wpx & Wpy & Wvx & Wvy & Py & Sx & Sy).
  pose proof (move_y_not_nan b Wpy Wvy Py Sy) as Ny.
  pose proof (flip_ok (hits_x (move b) W) _ Wvx Sx) as [Wx' Sx'].
  pose proof (flip_ok (hits_y (move b) SCREEN_HEIGHT) _ Wvy Sy) as [Wy' Sy'].
  unfold ball_ok.
  rewrite UpdateBall_radius, UpdateBall_position_x, UpdateBall_velocity_x,
    UpdateBall_velocity_y.
  repeat split; try assumption.
  - apply wf_add; assumption.
  - rewrite UpdateBall_position_y. cbv zeta. rewrite Hr.
    destruct (ge _ _); [reflexivity | ].
    destruct (le _ _); [reflexivity | ].
    apply wf_add; assumption.
  - apply UpdateBall_y_ok; assumption.
Qed.

Lemma ball_ok_frames (n : nat) (balls : list Ball) :
  Forall ball_ok balls -> Forall ball_ok (frames_balls n balls).
Proof.
  revert balls. induction n as [ | n IH]; intros balls Hb; [exact Hb | ].
  simpl frames_balls. apply IH. unfold update_all.
  apply Forall_map. revert Hb. apply Forall_impl.
  intros b. apply ball_ok_UpdateBall.
Qed.

Lemma speed_wf_range (k flip : Z) :
  200 <= k <= 800 ->
  wf (random_sign flip (div (of_int k) (of_int 100))) = true.
Proof.
  intros Hk.
  assert (H : forallb (fun k => wf (div (of_int k) (of_int 100))
                               && wf (mul (div (of_int k) (of_int 100))
                                          (of_int (-1))))
                      (Zrange 200 800) = true)
    by (vm_compute; reflexivity).
  rewrite forallb_forall in H. specialize (H k (Zrange_In _ _ _ Hk)).
  apply andb_true_iff in H as [H1 H2].
  unfold random_sign. destruct (flip =? 0); assumption.
Qed.

(** A run that returns has seen some [false]s and then a [true]. *)
Lemma main_loop_returns (closes : list bool) (balls bs : list Ball)
    (tr tr' : list Event) (rest : list bool) :
  main_loop closes balls tr = Some (bs, tr', rest) ->
  exists n : nat,
    closes = repeat false n ++ true :: rest /\
    bs = frames_balls n balls /\ tr' = tr ++ frames_trace n balls.
Proof.
  revert balls tr. induction closes as [ | c closes IH]; intros balls tr E.
  - discriminate E.
  - destruct c; simpl main_loop in E.
    + injection E as <- <- <-. exists O. simpl. rewrite app_nil_r. auto.
    + destruct (IH _ _ E) as (n & -> & -> & ->).
      exists (S n). simpl. rewrite <- app_assoc. auto.
Qed.

Section EveryFrame.

Variable rng : Type.
Variable GetRandomValue : Z -> Z -> rng -> Z * rng.
Hypothesis GetRandomValue_range :
  forall (lo hi : Z) (g : rng),
    lo <= hi -> lo <= fst (GetRandomValue lo hi g) <= hi.

Lemma init_ball_ball_ok (g : rng) :
  ball_ok (fst (init_ball rng GetRandomValue g)).
Proof.
  pose proof (init_ball_ok rng GetRandomValue GetRandomValue_range g) as Hok.
  unfold initial_ok in Hok. rewrite !andb_true_iff in Hok.
  destruct Hok as [[[_ Hy] Hsx] Hsy].
  revert Hy Hsx Hsy. unfold init_ball.
  change (to_int (mul BALL_MIN_SPEED (of_int 100))) with 200.
  change (to_int (mul BALL_MAX_SPEED (of_int 100))) with 800.
  destruct (GetRandomValue (to_int BALL_RADIUS) _ g) as [rx g1].
  destruct (GetRandomValue (to_int BALL_RADIUS) _ g1) as [ry g2].
  pose proof (GetRandomValue_range 200 800 g2 ltac:(lia)) as Hsx.
  destruct (GetRandomValue 200 800 g2) as [sx g3]. simpl fst in Hsx.
  pose proof (GetRandomValue_range 200 800 g3 ltac:(lia)) as Hsy.
  destruct (GetRandomValue 200 800 g3) as [sy g4]. simpl fst in Hsy.
  destruct (GetRandomValue 0 1 g4) as [fx g5].
  destruct (GetRandomValue 0 1 g5) as [fy g6].
  destruct (GetRandomValue 0 (numColors - 1) g6) as [ci g7].
  cbn [fst position velocity x y]. intros Hy Vx Vy.
  unfold ball_ok. cbn [fst position velocity radius x y].
  repeat split; try assumption; try apply wf_of_int;
    apply speed_wf_range; assumption.
Qed.

Lemma init_balls_ball_ok (n : nat) (g : rng) :
  Forall ball_ok (fst (init_balls rng GetRandomValue n g)).
Proof.
  revert g. induction n as [ | n IH]; intros g; simpl init_balls.
  - constructor.
  - pose proof (init_ball_ball_ok g) as Hb.
    destruct (init_ball rng GetRandomValue g) as [b g1]. simpl fst in Hb.
    specialize (IH g1).
    destruct (init_balls rng GetRandomValue n g1) as [bs g2].
    simpl fst in *. constructor; assumption.
Qed.

End EveryFrame.

(** * A ball on a side wall stays there *)

Lemma opp_opp (v : float) : SFopp (SFopp v) = v.
Proof. destruct v as [s | s | | s m e]; try destruct s; reflexivity. Qed.

(** The horizontal state of a ball: where it is, how fast, how large. *)
Lemma steps_stuck (n : nat) (b : Ball) (W H : Z) (x0 v r : float) :
  wf v = true ->
  le (sub x0 r) (of_int 0) || ge (add x0 r) (of_int W) = true ->
  le (sub (add x0 v) r) (of_int 0) || ge (add (add x0 v) r) (of_int W) = true ->
  add (add x0 v) (SFopp v) = x0 ->
  radius b = r ->
  (x (position b) = x0 /\ x (velocity b) = v)
  \/ (x (position b) = add x0 v /\ x (velocity b) = SFopp v) ->
  hits_x (move (steps n b W H)) W = true.
Proof.
  intros Wv At0 At1 Exact. revert b.
  assert (Step : forall b : Ball,
             radius b = r ->
             (x (position b) = x0 /\ x (velocity b) = v)
             \/ (x (position b) = add x0 v /\ x (velocity b) = SFopp v) ->
             hits_x (move b) W = true /\
             ((x (position (UpdateBall b W H)) = x0 /\
               x (velocity (UpdateBall b W H)) = v)
              \/ (x (position (UpdateBall b W H)) = add x0 v /\
                  x (velocity (UpdateBall b W H)) = SFopp v))).
  { intros b Hr [[Hp Hv] | [Hp Hv]].
    - assert (Hit : hits_x (move b) W = true).
      { unfold hits_x. rewrite move_position_x, Hp, Hv.
        change (radius (move b)) with (radius b). rewrite Hr, orb_comm.
        exact At1. }
      split; [exact Hit | right].
      rewrite UpdateBall_position_x, UpdateBall_velocity_x, Hit, Hp, Hv.
      split; [reflexivity | apply mul_m1, Wv].
    - assert (Hit : hits_x (move b) W = true).
      { unfold hits_x. rewrite move_position_x, Hp, Hv, Exact.
        change (radius (move b)) with (radius b). rewrite Hr, orb_comm.
        exact At0. }
      split; [exact Hit | left].
      rewrite UpdateBall_position_x, UpdateBall_velocity_x, Hit, Hp, Hv.
      split; [exact Exact | ].
      rewrite mul_m1 by (rewrite wf_opp; exact Wv). apply opp_opp. }
  induction n as [ | n IH]; intros b Hr Hs.
  - apply (Step b Hr Hs).
  - simpl steps. apply IH.
    + rewrite UpdateBall_radius. exact Hr.
    + apply (Step b Hr Hs).
Qed.

(** A ball that satisfies the horizontal reflection condition where it
    is and where its velocity takes it, and that a step with the negated
    velocity brings back exactly where it was, reflects at every frame
    for ever: [position.x] alternates between the two positions. *)
Theorem horizontal_wall_is_sticky (b : Ball) (W H : Z) :
  wf (x (velocity b)) = true ->
  hits_x b W = true ->
  hits_x (move b) W = true ->
  add (add (x (position b)) (x (velocity b))) (SFopp (x (velocity b)))
  = x (position b) ->
  forall n : nat, hits_x (move (steps n b W H)) W = true.
Proof.
  intros Wv At0 At1 Exact n.
  apply (steps_stuck n b W H (x (position b)) (x (velocity b)) (radius b));
    try assumption; try reflexivity.
  - unfold hits_x in At0. rewrite orb_comm. exact At0.
  - unfold hits_x in At1. rewrite move_position_x in At1.
    change (radius (move b)) with (radius b) in At1.
    rewrite orb_comm. exact At1.
  - left. split; reflexivity.
Qed.

Lemma horizontal_wall_is_sticky_witness :
  initial_ok (ball_at 20 100 (-3) 2) = true /\
  wf (x (velocity (ball_at 20 100 (-3) 2))) = true /\
  hits_x (ball_at 20 100 (-3) 2) SCREEN_WIDTH = true /\
  hits_x (move (ball_at 20 100 (-3) 2)) SCREEN_WIDTH = true /\
  add (add (x (position (ball_at 20 100 (-3) 2)))
           (x (velocity (ball_at 20 100 (-3) 2))))
      (SFopp (x (velocity (ball_at 20 100 (-3) 2))))
  = x (position (ball_at 20 100 (-3) 2)) /\
  forall n : nat,
    hits_x (move (steps n (ball_at 20 100 (-3) 2) SCREEN_WIDTH SCREEN_HEIGHT))
           SCREEN_WIDTH = true.
Proof.
  split; [reflexivity | split; [reflexivity | split; [reflexivity | split;
    [reflexivity | split; [reflexivity | ] ] ] ] ].
  exact (horizontal_wall_is_sticky (ball_at 20 100 (-3) 2)
           SCREEN_WIDTH SCREEN_HEIGHT eq_refl eq_refl eq_refl eq_refl).
Defined.

(** * The program returns exactly when it is asked to close *)

(** A run returns if and only if one of the answers of
    [WindowShouldClose] is [true]; as long as they are [false] the loop
    goes on. *)
Theorem main_returns_iff_closed :
  forall (rng : Type) (GetRandomValue : Z -> Z -> rng -> Z * rng) (g : rng)
         (closes : list bool),
    (exists out, main GetRandomValue g closes = Some out) <-> In true closes.
Proof.
  intros rng GetRandomValue g closes. unfold main.
  destruct (init_balls rng GetRandomValue NUM_BALLS g) as [balls g'].
  split.
  - intros [out E].
    destruct (main_loop closes balls _) as [[[bs tr] rest] | ] eqn:El;
      [ | discriminate E].
    destruct (main_loop_returns _ _ _ _ _ _ El) as (n & -> & _).
    apply in_or_app. right. left. reflexivity.
  - intros Hin. destruct (first_close closes Hin) as (n & rest & ->).
    rewrite main_loop_until_close. eexists. reflexivity.
Qed.

(** * The balls do not see each other *)

Lemma update_all_length (balls : list Ball) :
  List.length (update_all balls) = List.length balls.
Proof. unfold update_all. apply length_map. Qed.

Lemma frames_balls_length (n : nat) (balls : list Ball) :
  List.length (frames_balls n balls) = List.length balls.
Proof.
  revert balls. induction n as [ | n IH]; intros balls; [reflexivity | ].
  simpl frames_balls. rewrite IH. apply update_all_length.
Qed.

(** [n] frames over the array are [n] steps of each ball, on its own. *)
Lemma frames_balls_steps (n : nat) (balls : list Ball) :
  frames_balls n balls
  = map (fun b => steps n b SCREEN_WIDTH SCREEN_HEIGHT) balls.
Proof.
  revert balls. induction n as [ | n IH]; intros balls.
  - simpl. symmetry. apply map_id.
  - simpl frames_balls. rewrite IH. unfold update_all. rewrite map_map.
    reflexivity.
Qed.

(** After any number of frames the ball of index [i] is what [n] steps
    make of the ball that was at index [i], whatever the other balls
    are; and an index out of the array stays out of it. *)
Lemma frames_balls_nth (n : nat) (balls : list Ball) (i : nat) :
  nth_error (frames_balls n balls) i
  = option_map (fun b => steps n b SCREEN_WIDTH SCREEN_HEIGHT)
               (nth_error balls i).
Proof.
  rewrite frames_balls_steps. apply nth_error_map.
Qed.

(** * What a run draws *)

Lemma count_app (f : Event -> bool) (a b : list Event) :
  count f (a ++ b) = (count f a + count f b)%nat.
Proof. unfold count. rewrite filter_app. apply length_app. Qed.

Lemma count_circles_of_balls (balls : list Ball) :
  count is_circle (map DrawBall balls) = List.length balls.
Proof.
  unfold count. induction balls as [ | b balls IH]; [reflexivity | ].
  simpl. rewrite IH. reflexivity.
Qed.

Lemma count_others_of_balls (f : Event -> bool) (balls : list Ball) :
  (forall b, f (DrawBall b) = false) ->
  count f (map DrawBall balls) = O.
Proof.
  intros Hf. unfold count. induction balls as [ | b balls IH]; [reflexivity | ].
  simpl. rewrite Hf. exact IH.
Qed.

(** One frame: one opening, one closing, one label, one circle per ball. *)
Lemma count_render_all (balls : list Ball) :
  count is_circle (render_all balls) = List.length balls /\
  count is_begin (render_all balls) = 1%nat /\
  count is_end (render_all balls) = 1%nat /\
  count is_text (render_all balls) = 1%nat.
Proof.
  unfold render_all. rewrite !count_app, count_circles_of_balls.
  rewrite !(count_others_of_balls _ balls) by reflexivity.
  repeat split; unfold count; simpl; lia.
Qed.

Lemma count_frames_trace (n : nat) (balls : list Ball) :
  count is_circle (frames_trace n balls) = (n * List.length balls)%nat /\
  count is_begin (frames_trace n balls) = n /\
  count is_end (frames_trace n balls) = n /\
  count is_text (frames_trace n balls) = n.
Proof.
  revert balls. induction n as [ | n IH]; intros balls.
  - repeat split.
  - change (frames_trace (S n) balls)
      with (render_all (update_all balls) ++ frames_trace n (update_all balls)).
    rewrite !count_app.
    destruct (IH (update_all balls)) as (Hc & Hb & He & Ht).
    destruct (count_render_all (update_all balls)) as (Rc & Rb & Re & Rt).
    rewrite Hc, Hb, He, Ht, Rc, Rb, Re, Rt, update_all_length.
    repeat split; lia.
Qed.

(** Every run that returns has run [n] frames, [n] being the number of
    answers [false] before the first [true]: it leaves an array of 2500
    balls, each of them the ball that the initializer put at that index,
    moved [n] times; and it has opened, labelled and closed [n] frames
    and drawn [n * 2500] circles. *)
Theorem main_keeps_the_array_and_draws_it_every_frame :
  forall (rng : Type) (GetRandomValue : Z -> Z -> rng -> Z * rng) (g : rng)
         (closes : list bool) (out : Outcome),
    main GetRandomValue g closes = Some out ->
    exists n : nat,
      closes = repeat false n ++ true :: unread_closes out /\
      List.length (final_balls out) = NUM_BALLS /\
      final_balls out
      = map (fun b => steps n b SCREEN_WIDTH SCREEN_HEIGHT)
            (fst (init_balls rng GetRandomValue NUM_BALLS g)) /\
      count is_begin (trace out) = n /\
      count is_end (trace out) = n /\
      count is_text (trace out) = n /\
      count is_circle (trace out) = (n * NUM_BALLS)%nat.
Proof.
  intros rng GetRandomValue g closes out. unfold main.
  pose proof (init_balls_length rng GetRandomValue NUM_BALLS g) as Hlen.
  destruct (init_balls rng GetRandomValue NUM_BALLS g) as [balls g'].
  simpl fst in *.
  destruct (main_loop closes balls _) as [[[bs tr] rest] | ] eqn:E;
    intros Eo; [ | discriminate Eo].
  injection Eo as <-.
  destruct (main_loop_returns _ _ _ _ _ _ E) as (n & -> & -> & ->).
  exists n. cbn [unread_closes final_balls trace].
  destruct (count_frames_trace n balls) as (Hc & Hb & He & Ht).
  split; [reflexivity | ].
  split; [rewrite frames_balls_length; exact Hlen | ].
  split; [apply frames_balls_steps | ].
  rewrite !count_app, Hc, Hb, He, Ht, Hlen.
  repeat split; unfold count; simpl; lia.
Qed.

Lemma main_keeps_the_array_and_draws_it_every_frame_witness :
  main lowest tt [false; true; true] = Some one_frame_run /\
  exists n : nat,
    [false; true; true] = repeat false n ++ true :: unread_closes one_frame_run /\
    List.length (final_balls one_frame_run) = NUM_BALLS /\
    final_balls one_frame_run
    = map (fun b => steps n b SCREEN_WIDTH SCREEN_HEIGHT)
          (fst (init_balls unit lowest NUM_BALLS tt)) /\
    count is_begin (trace one_frame_run) = n /\
    count is_end (trace one_frame_run) = n /\
    count is_text (trace one_frame_run) = n /\
    count is_circle (trace one_frame_run) = (n * NUM_BALLS)%nat.
Proof.
  split; [reflexivity | ].
  exact (main_keeps_the_array_and_draws_it_every_frame unit lowest tt
           [false; true; true] one_frame_run eq_refl).
Defined.

Lemma protocol_app (p : Phase) (a b : list Event) :
  protocol p (a ++ b)
  = match protocol p a with Some q => protocol q b | None => None end.
Proof.
  revert p. induction a as [ | e a IH]; intros p; [reflexivity | ].
  simpl. destruct (protocol_step p e) as [p' | ]; [apply IH | reflexivity].
Qed.

Lemma protocol_circles (k : nat) (balls : list Ball) :
  protocol (Drawing k) (map DrawBall balls)
  = Some (Drawing (k + List.length balls)).
Proof.
  revert k. induction balls as [ | b balls IH]; intros k.
  - simpl. rewrite Nat.add_0_r. reflexivity.
  - cbn [map protocol]. change (protocol_step (Drawing k) (DrawBall b))
      with (Some (Drawing (S k))). cbv iota beta.
    rewrite IH. cbn [List.length]. f_equal. f_equal. lia.
Qed.

Lemma protocol_render_all (balls : list Ball) :
  List.length balls = NUM_BALLS ->
  protocol Idle (render_all balls) = Some Idle.
Proof.
  intros Hlen. unfold render_all.
  change ([BeginDrawing; ClearBackground RAYWHITE] ++ ?l)
    with (BeginDrawing :: ClearBackground RAYWHITE :: l).
  cbn [protocol protocol_step].
  rewrite protocol_app, protocol_circles, Hlen. cbn [Nat.add].
  cbn [protocol]. unfold protocol_step. rewrite Nat.eqb_refl. reflexivity.
Qed.

Lemma protocol_frames_trace (n : nat) (balls : list Ball) :
  List.length balls = NUM_BALLS ->
  protocol Idle (frames_trace n balls) = Some Idle.
Proof.
  revert balls. induction n as [ | n IH]; intros balls Hlen; [reflexivity | ].
  change (frames_trace (S n) balls)
    with (render_all (update_all balls) ++ frames_trace n (update_all balls)).
  rewrite protocol_app, protocol_render_all.
  - apply IH. rewrite update_all_length. exact Hlen.
  - rewrite update_all_length. exact Hlen.
Qed.

(** The calls come in the order of raylib: every run that returns opens
    the window first, sets the frame rate, then for each frame calls
    [BeginDrawing], [ClearBackground], [DrawCircleV] exactly 2500 times,
    [DrawText] and [EndDrawing], and calls [CloseWindow] last, outside
    of a frame; it calls nothing after that. *)
Theorem main_follows_the_protocol :
  forall (rng : Type) (GetRandomValue : Z -> Z -> rng -> Z * rng) (g : rng)
         (closes : list bool) (out : Outcome),
    main GetRandomValue g closes = Some out ->
    protocol NoWindow (trace out) = Some WindowClosed /\
    forall e : Event, protocol NoWindow (trace out ++ [e]) = None.
Proof.
  intros rng GetRandomValue g closes out. unfold main.
  pose proof (init_balls_length rng GetRandomValue NUM_BALLS g) as Hlen.
  destruct (init_balls rng GetRandomValue NUM_BALLS g) as [balls g'].
  simpl fst in *.
  destruct (main_loop closes balls _) as [[[bs tr] rest] | ] eqn:E;
    intros Eo; [ | discriminate Eo].
  injection Eo as <-.
  destruct (main_loop_returns _ _ _ _ _ _ E) as (n & -> & -> & ->).
  cbn [trace].
  assert (Run : protocol NoWindow
                  (([InitWindow SCREEN_WIDTH SCREEN_HEIGHT "Raylib C - Bouncing Ball";
                     SetTargetFPS TARGET_FPS] ++ frames_trace n balls)
                   ++ [CloseWindow]) = Some WindowClosed).
  { rewrite !protocol_app.
    change (protocol NoWindow [InitWindow SCREEN_WIDTH SCREEN_HEIGHT
                                 "Raylib C - Bouncing Ball";
                               SetTargetFPS TARGET_FPS]) with (Some Idle).
    cbv iota beta. rewrite protocol_frames_trace by exact Hlen. reflexivity. }
  split; [exact Run | ].
  intros e. rewrite protocol_app, Run. destruct e; reflexivity.
Qed.

Lemma main_follows_the_protocol_witness :
  main lowest tt [false; true; true] = Some one_frame_run /\
  protocol NoWindow (trace one_frame_run) = Some WindowClosed /\
  forall e : Event, protocol NoWindow (trace one_frame_run ++ [e]) = None.
Proof.
  split; [reflexivity | ].
  exact (main_follows_the_protocol unit lowest tt [false; true; true]
           one_frame_run eq_refl).
Defined.

(** * Every circle on the screen *)

Lemma ball_seen_UpdateBall (b : Ball) (W : Z) :
  ball_ok b /\ In (color b) ballColors ->
  ball_ok (UpdateBall b W SCREEN_HEIGHT)
  /\ In (color (UpdateBall b W SCREEN_HEIGHT)) ballColors.
Proof.
  intros [Hb Hc]. split; [apply ball_ok_UpdateBall, Hb | ].
  rewrite UpdateBall_color. exact Hc.
Qed.

Lemma ball_seen_update_all (balls : list Ball) :
  Forall (fun b => ball_ok b /\ In (color b) ballColors) balls ->
  Forall (fun b => ball_ok b /\ In (color b) ballColors) (update_all balls).
Proof.
  intros H. unfold update_all. apply Forall_map. revert H.
  apply Forall_impl. intros b. apply ball_seen_UpdateBall.
Qed.

Lemma circle_ok_DrawBall (b : Ball) :
  ball_ok b /\ In (color b) ballColors -> circle_ok (DrawBall b).
Proof.
  intros [(Hr & _ & _ & _ & _ & Hy & _) Hc]. unfold DrawBall, circle_ok. auto.
Qed.

Lemma circle_ok_render_all (balls : list Ball) :
  Forall (fun b => ball_ok b /\ In (color b) ballColors) balls ->
  Forall circle_ok (render_all balls).
Proof.
  intros H. unfold render_all.
  apply Forall_app. split; [repeat constructor | ].
  apply Forall_app. split; [ | repeat constructor].
  apply Forall_map. revert H. apply Forall_impl.
  intros b. apply circle_ok_DrawBall.
Qed.

Lemma circle_ok_frames_trace (n : nat) (balls : list Ball) :
  Forall (fun b => ball_ok b /\ In (color b) ballColors) balls ->
  Forall circle_ok (frames_trace n balls).
Proof.
  revert balls. induction n as [ | n IH]; intros balls H; [constructor | ].
  change (frames_trace (S n) balls)
    with (render_all (update_all balls) ++ frames_trace n (update_all balls)).
  apply Forall_app. split.
  - apply circle_ok_render_all, ball_seen_update_all, H.
  - apply IH, ball_seen_update_all, H.
Qed.

Section EveryCircle.

Variable rng : Type.
Variable GetRandomValue : Z -> Z -> rng -> Z * rng.
Hypothesis GetRandomValue_range :
  forall (lo hi : Z) (g : rng),
    lo <= hi -> lo <= fst (GetRandomValue lo hi g) <= hi.

(** The index that the generator answers is within the palette. *)
Lemma init_ball_color (g : rng) :
  In (color (fst (init_ball rng GetRandomValue g))) ballColors.
Proof.
  unfold init_ball.
  destruct (GetRandomValue (to_int BALL_RADIUS) _ g) as [rx g1].
  destruct (GetRandomValue (to_int BALL_RADIUS) _ g1) as [ry g2].
  destruct (GetRandomValue _ _ g2) as [sx g3].
  destruct (GetRandomValue _ _ g3) as [sy g4].
  destruct (GetRandomValue 0 1 g4) as [fx g5].
  destruct (GetRandomValue 0 1 g5) as [fy g6].
  pose proof (GetRandomValue_range 0 (numColors - 1) g6) as Hc.
  destruct (GetRandomValue 0 (numColors - 1) g6) as [ci g7].
  simpl fst in Hc. cbn [fst color].
  apply nth_In. change numColors with 17 in Hc.
  change (List.length ballColors) with 17%nat. lia.
Qed.

Lemma init_balls_seen (n : nat) (g : rng) :
  Forall (fun b => ball_ok b /\ In (color b) ballColors)
         (fst (init_balls rng GetRandomValue n g)).
Proof.
  revert g. induction n as [ | n IH]; intros g; simpl init_balls.
  - constructor.
  - pose proof (init_ball_ball_ok rng GetRandomValue GetRandomValue_range g)
      as Hb.
    pose proof (init_ball_color g) as Hc.
    destruct (init_ball rng GetRandomValue g) as [b g1]. simpl fst in Hb, Hc.
    specialize (IH g1).
    destruct (init_balls rng GetRandomValue n g1) as [bs g2].
    simpl fst in *. constructor; [split; assumption | exact IH].
Qed.

(** When the random generator answers within the range it is asked for,
    every circle that a run draws has the radius 20, one of the 17
    colours of the palette (so never the colour of the background), and
    a centre whose [y] is within [20, 430]: no ball is ever drawn across
    the ceiling or the floor. *)
Theorem every_circle_is_between_ceiling_and_floor (g : rng) :
  (forall n : nat,
      Forall circle_ok
        (frames_trace n (fst (init_balls rng GetRandomValue NUM_BALLS g))))
  /\ (forall (closes : list bool) (out : Outcome),
         main GetRandomValue g closes = Some out ->
         Forall circle_ok (trace out))
  /\ ~ In RAYWHITE ballColors.
Proof.
  pose proof (init_balls_seen NUM_BALLS g) as H0.
  split; [intros n; apply circle_ok_frames_trace, H0 | split].
  - intros closes out. unfold main.
    destruct (init_balls rng GetRandomValue NUM_BALLS g) as [balls g'].
    cbn [fst] in H0.
    destruct (main_loop closes balls _) as [[[bs tr] rest] | ] eqn:E;
      intros Eo; [ | discriminate Eo].
    injection Eo as <-.
    destruct (main_loop_returns _ _ _ _ _ _ E) as (n & -> & -> & ->).
    cbn [trace].
    apply Forall_app. split; [ | repeat constructor].
    apply Forall_app. split; [repeat constructor | ].
    apply circle_ok_frames_trace, H0.
  - unfold ballColors. intros H.
    repeat (destruct H as [H | H]; [discriminate H | ]). exact H.
Qed.

End EveryCircle.

Lemma every_circle_is_between_ceiling_and_floor_witness :
  (forall (lo hi : Z) (g : unit), lo <= hi -> lo <= fst (lowest lo hi g) <= hi) /\
  (forall n : nat,
      Forall circle_ok (frames_trace n (fst (init_balls unit lowest NUM_BALLS tt)))) /\
  (forall (closes : list bool) (out : Outcome),
      main lowest tt closes = Some out -> Forall circle_ok (trace out)) /\
  ~ In RAYWHITE ballColors.
Proof.
  split; [intros lo hi g H; unfold lowest, fst; lia | ].
  exact (every_circle_is_between_ceiling_and_floor unit lowest
           (fun lo hi g H => conj (Z.le_refl lo) H) tt).
Defined.

(** * The velocity over a whole run *)

(** A step leaves each component of the velocity as it is or negates it. *)
Lemma UpdateBall_velocity_cases (b : Ball) (W H : Z) (vx vy : float) :
  wf vx = true -> wf vy = true ->
  (x (velocity b) = vx \/ x (velocity b) = SFopp vx) ->
  (y (velocity b) = vy \/ y (velocity b) = SFopp vy) ->
  (x (velocity (UpdateBall b W H)) = vx
   \/ x (velocity (UpdateBall b W H)) = SFopp vx) /\
  (y (velocity (UpdateBall b W H)) = vy
   \/ y (velocity (UpdateBall b W H)) = SFopp vy).
Proof.
  intros Wx Wy Hx Hy.
  rewrite UpdateBall_velocity_x, UpdateBall_velocity_y. split.
  - destruct (hits_x (move b) W); [ | exact Hx].
    destruct Hx as [-> | ->].
    + right. apply mul_m1, Wx.
    + left. rewrite mul_m1 by (rewrite wf_opp; exact Wx). apply opp_opp.
  - destruct (hits_y (move b) H); [ | exact Hy].
    destruct Hy as [-> | ->].
    + right. apply mul_m1, Wy.
    + left. rewrite mul_m1 by (rewrite wf_opp; exact Wy). apply opp_opp.
Qed.

Lemma steps_velocity_cases (n : nat) (b : Ball) (W H : Z) (vx vy : float) :
  wf vx = true -> wf vy = true ->
  (x (velocity b) = vx \/ x (velocity b) = SFopp vx) ->
  (y (velocity b) = vy \/ y (velocity b) = SFopp vy) ->
  (x (velocity (steps n b W H)) = vx
   \/ x (velocity (steps n b W H)) = SFopp vx) /\
  (y (velocity (steps n b W H)) = vy
   \/ y (velocity (steps n b W H)) = SFopp vy).
Proof.
  intros Wx Wy. revert b. induction n as [ | n IH]; intros b Hx Hy.
  - split; assumption.
  - simpl steps.
    destruct (UpdateBall_velocity_cases b W H vx vy Wx Wy Hx Hy) as [Hx' Hy'].
    apply IH; assumption.
Qed.

Lemma speed_of_cases (v w : Vector2) :
  (x w = x v \/ x w = SFopp (x v)) ->
  (y w = y v \/ y w = SFopp (y v)) ->
  speed w = speed v.
Proof.
  intros [Hx | Hx] [Hy | Hy]; unfold speed; rewrite Hx, Hy, ?mul_opp_opp;
    reflexivity.
Qed.

(** After any number of steps each component of the velocity of a ball
    is the one it started with or its opposite, bit for bit, and the
    speed [sqrt (vx * vx + vy * vy)] is the one it started with: no
    rounding error ever enters the velocity.  So it is of every ball of
    the array after any number of frames. *)
Theorem velocity_is_kept_up_to_sign :
  (forall (b : Ball) (W H : Z) (n : nat),
      wf (x (velocity b)) = true -> wf (y (velocity b)) = true ->
      (x (velocity (steps n b W H)) = x (velocity b)
       \/ x (velocity (steps n b W H)) = SFopp (x (velocity b))) /\
      (y (velocity (steps n b W H)) = y (velocity b)
       \/ y (velocity (steps n b W H)) = SFopp (y (velocity b))) /\
      speed (velocity (steps n b W H)) = speed (velocity b))
  /\ (forall (balls : list Ball) (n : nat),
         Forall (fun b => wf (x (velocity b)) = true
                          /\ wf (y (velocity b)) = true) balls ->
         map (fun b => speed (velocity b)) (frames_balls n balls)
         = map (fun b => speed (velocity b)) balls).
Proof.
  assert (One : forall (b : Ball) (W H : Z) (n : nat),
      wf (x (velocity b)) = true -> wf (y (velocity b)) = true ->
      (x (velocity (steps n b W H)) = x (velocity b)
       \/ x (velocity (steps n b W H)) = SFopp (x (velocity b))) /\
      (y (velocity (steps n b W H)) = y (velocity b)
       \/ y (velocity (steps n b W H)) = SFopp (y (velocity b))) /\
      speed (velocity (steps n b W H)) = speed (velocity b)).
  { intros b W H n Wx Wy.
    destruct (steps_velocity_cases n b W H _ _ Wx Wy) as [Hx Hy]; auto.
    split; [exact Hx | split; [exact Hy | ] ].
    apply speed_of_cases; assumption. }
  split; [exact One | ].
  intros balls n Hwf. rewrite frames_balls_steps, map_map.
  apply map_ext_in. intros b Hb.
  rewrite Forall_forall in Hwf. destruct (Hwf b Hb) as [Wx Wy].
  apply One; assumption.
Qed.

Lemma velocity_is_kept_up_to_sign_witness :
  wf (x (velocity (ball_at 20 428 (-3) 4))) = true /\
  wf (y (velocity (ball_at 20 428 (-3) 4))) = true /\
  (x (velocity (steps 7%nat (ball_at 20 428 (-3) 4) 800 450)) = of_int (-3)
   \/ x (velocity (steps 7%nat (ball_at 20 428 (-3) 4) 800 450)) = of_int 3) /\
  (y (velocity (steps 7%nat (ball_at 20 428 (-3) 4) 800 450)) = of_int 4
   \/ y (velocity (steps 7%nat (ball_at 20 428 (-3) 4) 800 450)) = of_int (-4)) /\
  speed (velocity (steps 7%nat (ball_at 20 428 (-3) 4) 800 450)) = of_int 5.
Proof.
  split; [reflexivity | split; [reflexivity | ] ].
  exact (proj1 velocity_is_kept_up_to_sign (ball_at 20 428 (-3) 4) 800 450 7%nat
           eq_refl eq_refl).
Defined.

(** * A coordinate that is not a number *)

Lemma add_nan_l (v : float) : add S754_nan v = S754_nan.
Proof. destruct v; reflexivity. Qed.

Lemma tests_false_on_nan (r h : float) :
  ge (add S754_nan r) h || le (sub S754_nan r) (of_int 0) = false.
Proof. destruct r; destruct h; reflexivity. Qed.

Lemma nan_is (f : float) : is_nan f = true -> f = S754_nan.
Proof. destruct f; intros H; try discriminate H; reflexivity. Qed.

Lemma UpdateBall_nan_y (b : Ball) (W H : Z) :
  is_nan (add (y (position b)) (y (velocity b))) = true ->
  y (position (UpdateBall b W H)) = S754_nan /\
  y (velocity (UpdateBall b W H)) = y (velocity b).
Proof.
  intros N. apply nan_is in N.
  pose proof (tests_false_on_nan (radius b) (of_int H)) as T.
  apply orb_false_iff in T as [T1 T2]. split.
  - rewrite UpdateBall_position_y. cbv zeta. rewrite N, T1, T2. reflexivity.
  - rewrite UpdateBall_velocity_y. unfold hits_y.
    rewrite move_position_y, N. change (radius (move b)) with (radius b).
    rewrite T1, T2. reflexivity.
Qed.

Lemma UpdateBall_nan_x (b : Ball) (W H : Z) :
  is_nan (add (x (position b)) (x (velocity b))) = true ->
  x (position (UpdateBall b W H)) = S754_nan /\
  x (velocity (UpdateBall b W H)) = x (velocity b).
Proof.
  intros N. apply nan_is in N.
  pose proof (tests_false_on_nan (radius b) (of_int W)) as T.
  apply orb_false_iff in T as [T1 T2]. split.
  - rewrite UpdateBall_position_x. exact N.
  - rewrite UpdateBall_velocity_x. unfold hits_x.
    rewrite move_position_x, N. change (radius (move b)) with (radius b).
    rewrite T1, T2. reflexivity.
Qed.

(** Nothing repairs a coordinate that is not a number.  If
    [position.y + velocity.y] is a NaN (one of them is, or they are
    opposite infinities), then after every later step [position.y] is a
    NaN, no test of line 34 holds, and [velocity.y] is never negated; and
    so it is of [x], with line 31. *)
Theorem nan_is_never_repaired (b : Ball) (W H : Z) (n : nat) :
  (is_nan (add (x (position b)) (x (velocity b))) = true ->
   x (position (steps (S n) b W H)) = S754_nan /\
   x (velocity (steps (S n) b W H)) = x (velocity b) /\
   hits_x (move (steps n b W H)) W = false)
  /\ (is_nan (add (y (position b)) (y (velocity b))) = true ->
      y (position (steps (S n) b W H)) = S754_nan /\
      y (velocity (steps (S n) b W H)) = y (velocity b) /\
      hits_y (move (steps n b W H)) H = false).
Proof.
  split; revert b; induction n as [ | n IH]; intros b N.
  - destruct (UpdateBall_nan_x b W H N) as [Hp Hv].
    split; [exact Hp | split; [exact Hv | ] ].
    simpl steps. unfold hits_x. rewrite move_position_x, (nan_is _ N).
    apply tests_false_on_nan.
  - destruct (UpdateBall_nan_x b W H N) as [Hp Hv].
    change (steps (S (S n)) b W H) with (steps (S n) (UpdateBall b W H) W H).
    change (steps (S n) b W H) with (steps n (UpdateBall b W H) W H).
    rewrite <- Hv. apply IH. rewrite Hp. reflexivity.
  - destruct (UpdateBall_nan_y b W H N) as [Hp Hv].
    split; [exact Hp | split; [exact Hv | ] ].
    simpl steps. unfold hits_y. rewrite move_position_y, (nan_is _ N).
    apply tests_false_on_nan.
  - destruct (UpdateBall_nan_y b W H N) as [Hp Hv].
    change (steps (S (S n)) b W H) with (steps (S n) (UpdateBall b W H) W H).
    change (steps (S n) b W H) with (steps n (UpdateBall b W H) W H).
    rewrite <- Hv. apply IH. rewrite Hp. reflexivity.
Qed.

Lemma nan_is_never_repaired_witness :
  is_nan (add (y (position lost_ball)) (y (velocity lost_ball))) = true /\
  y (position (steps 3%nat lost_ball 800 450)) = S754_nan /\
  y (velocity (steps 3%nat lost_ball 800 450)) = of_int 4 /\
  hits_y (move (steps 2%nat lost_ball 800 450)) 450 = false.
Proof.
  split; [reflexivity | ].
  exact (proj2 (nan_is_never_repaired lost_ball 800 450 2%nat) eq_refl).
Defined.

(** * The initializer, ball after ball *)


(** * The tests of the walls are exact *)

Lemma rnd_pos_value (z : Z) : 0 < z -> 0 < rnd z.
Proof.
  intros Hz. assert (H1 : rnd 1 = 1) by (vm_compute; reflexivity).
  pose proof (rnd_mono 1 z ltac:(lia)). lia.
Qed.

(** A binary32 number with 24 digits above [2 ^ s] is a multiple of
    [2 ^ s]. *)
Lemma rnd_fixed_multiple (P s : Z) :
  rnd P = P -> 0 <= s -> 2 ^ (s + 23) <= P < 2 ^ (s + 24) -> P < overflow ->
  exists k : Z, P = k * 2 ^ s.
Proof.
  intros Hfix Hs [Hlo Hhi] Hov.
  assert (Hp : 0 < P) by (pose proof (pow2_pos (s + 23) ltac:(lia)); lia).
  rewrite rnd_of_pos in Hfix by exact Hp.
  assert (Hl : Z.log2 P = s + 23).
  { apply Z.log2_unique; [lia | ].
    replace (Z.succ (s + 23)) with (s + 24) by lia. split; assumption. }
  assert (Hsh : shift_of P = s) by (unfold shift_of; lia).
  unfold rnd_pos in Hfix. rewrite Hsh in Hfix. unfold rnd_at in Hfix.
  exists (P / 2 ^ s + b2z (round_up s P)). lia.
Qed.

(** Below a threshold [T] of the grid, a binary32 number is at least one
    step of the grid below it; so adding [R] and rounding stays below
    [T + R], as soon as [T + R] less one step is a binary32 number. *)
Lemma add_stays_below (P T R s : Z) :
  rnd P = P -> P < overflow -> 0 <= s ->
  2 ^ (s + 23) < T <= 2 ^ (s + 24) ->
  (exists t : Z, T = t * 2 ^ s) ->
  rnd (T + R - 2 ^ s) < T + R ->
  rnd (2 ^ (s + 23) + R) < T + R ->
  P < T -> rnd (P + R) < T + R.
Proof.
  intros Hfix Hov Hs [Tlo Thi] [t Ht] Hgrid Hlow Hlt.
  destruct (Z.lt_ge_cases P (2 ^ (s + 23))) as [Small | Large].
  - pose proof (rnd_mono (P + R) (2 ^ (s + 23) + R) ltac:(lia)). lia.
  - destruct (rnd_fixed_multiple P s Hfix Hs ltac:(lia) Hov) as [k Hk].
    pose proof (pow2_pos s Hs) as Hp.
    assert (k < t) by nia.
    assert (P <= T - 2 ^ s) by nia.
    pose proof (rnd_mono (P + R) (T + R - 2 ^ s) ltac:(lia)). lia.
Qed.

Lemma finite_value (p : float) :
  wf p = true -> is_finite p = true ->
  rnd (F2Z p) = F2Z p /\ - overflow < F2Z p < overflow /\ is_nan p = false.
Proof.
  intros W F. split; [apply rnd_F2Z, W | ].
  destruct p as [s | s | | s m e]; try discriminate F.
  - split; [ | reflexivity]. assert (0 < overflow) by reflexivity. simpl. lia.
  - split; [ | reflexivity].
    unfold wf, valid_binary, prec, emax in W.
    pose proof (bounded_value m e W). unfold F2Z, cond_Zopp. destruct s; lia.
Qed.

(** The floor and the right wall: [p + 20 >= limit] is [p >= limit - 20]. *)
Lemma far_wall_exact (p : float) (limit : Z) (s : Z) :
  wf p = true -> is_finite p = true ->
  0 <= s -> 20 < limit < 2 ^ 24 ->
  2 ^ (s + 23) < (limit - 20) * 2 ^ 149 <= 2 ^ (s + 24) ->
  (exists t : Z, (limit - 20) * 2 ^ 149 = t * 2 ^ s) ->
  rnd (limit * 2 ^ 149 - 2 ^ s) < limit * 2 ^ 149 ->
  rnd (2 ^ (s + 23) + 20 * 2 ^ 149) < limit * 2 ^ 149 ->
  ge (add p BALL_RADIUS) (of_int limit) = le (of_int (limit - 20)) p.
Proof.
  intros W F Hs Hl Hb Hg H1 H2.
  destruct (finite_value p W F) as (Hfix & Hov & N).
  pose proof (between_of_int 20 ltac:(lia)) as (W20 & F20 & V20).
  pose proof (between_of_int limit ltac:(lia)) as (WL & FL & VL).
  pose proof (between_of_int (limit - 20) ltac:(lia)) as (WT & FT & VT).
  pose proof (add_spec p BALL_RADIUS W W20 F F20) as (Wa & Na & Ea).
  assert (NL : is_nan (of_int limit) = false)
    by (destruct (of_int limit); try discriminate FL; reflexivity).
  assert (NT : is_nan (of_int (limit - 20)) = false)
    by (destruct (of_int (limit - 20)); try discriminate FT; reflexivity).
  assert (E20 : F2Z BALL_RADIUS = 20 * 2 ^ 149) by (unfold BALL_RADIUS; lia).
  apply eq_true_iff_eq. unfold ge.
  rewrite (le_F2Z _ _ WL Wa NL Na), (le_F2Z _ _ WT W NT N), Ea, E20.
  replace (F2Z (of_int limit)) with (limit * 2 ^ 149) by lia.
  replace (F2Z (of_int (limit - 20))) with ((limit - 20) * 2 ^ 149) by lia.
  split; intros H.
  - destruct (Z.lt_ge_cases (F2Z p) ((limit - 20) * 2 ^ 149)) as [L | G];
      [ | lia].
    pose proof (add_stays_below (F2Z p) ((limit - 20) * 2 ^ 149)
                  (20 * 2 ^ 149) s Hfix ltac:(lia) Hs Hb Hg) as Hbelow.
    replace ((limit - 20) * 2 ^ 149 + 20 * 2 ^ 149) with (limit * 2 ^ 149)
      in Hbelow by lia.
    specialize (Hbelow H1 H2 L). lia.
  - rewrite <- (rnd_small_int limit) by lia. apply rnd_mono. lia.
Qed.

(** The ceiling and the left wall: [p - 20 <= 0] is [p <= 20]. *)
Lemma near_wall_exact (p : float) :
  wf p = true -> is_finite p = true ->
  le (sub p BALL_RADIUS) (of_int 0) = le p BALL_RADIUS.
Proof.
  intros W F.
  destruct (finite_value p W F) as (Hfix & Hov & N).
  pose proof (between_of_int 20 ltac:(lia)) as (W20 & F20 & V20).
  pose proof (sub_spec p BALL_RADIUS W W20 F F20) as (Ws & Ns & Es).
  assert (E20 : F2Z BALL_RADIUS = 20 * 2 ^ 149) by (unfold BALL_RADIUS; lia).
  apply eq_true_iff_eq.
  rewrite (le_F2Z _ _ Ws (wf_of_int 0) Ns eq_refl),
          (le_F2Z _ _ W W20 N eq_refl), Es, E20.
  change (F2Z (of_int 0)) with 0.
  split; intros H.
  - destruct (Z.lt_ge_cases (20 * 2 ^ 149) (F2Z p)) as [L | G]; [ | lia].
    pose proof (rnd_pos_value (F2Z p - 20 * 2 ^ 149) ltac:(lia)). lia.
  - change 0 with (rnd 0). apply rnd_mono. lia.
Qed.

Lemma hits_x_exact (b : Ball) :
  radius b = BALL_RADIUS -> wf (x (position b)) = true ->
  hits_x b SCREEN_WIDTH
  = le (of_int 780) (x (position b)) || le (x (position b)) (of_int 20).
Proof.
  intros Hr Wx. unfold hits_x. rewrite Hr.
  destruct (is_finite (x (position b))) eqn:F.
  - rewrite near_wall_exact by assumption. f_equal.
    apply (far_wall_exact _ 800 135 Wx F).
    + lia.
    + lia.
    + split; [reflexivity | intros C; discriminate C].
    + exists (780 * 2 ^ 14). reflexivity.
    + vm_compute. reflexivity.
    + vm_compute. reflexivity.
  - destruct (x (position b)) as [s | [ | ] | | s m e]; try discriminate F;
      reflexivity.
Qed.

Lemma hits_y_exact (b : Ball) :
  radius b = BALL_RADIUS -> wf (y (position b)) = true ->
  hits_y b SCREEN_HEIGHT
  = le (of_int 430) (y (position b)) || le (y (position b)) (of_int 20).
Proof.
  intros Hr Wy. unfold hits_y. rewrite Hr.
  destruct (is_finite (y (position b))) eqn:F.
  - rewrite near_wall_exact by assumption. f_equal.
    apply (far_wall_exact _ 450 134 Wy F).
    + lia.
    + lia.
    + split; [reflexivity | intros C; discriminate C].
    + exists (430 * 2 ^ 15). reflexivity.
    + vm_compute. reflexivity.
    + vm_compute. reflexivity.
  - destruct (y (position b)) as [s | [ | ] | | s m e]; try discriminate F;
      reflexivity.
Qed.

(** For the ball of the program, of radius 20, in the viewport of the
    program, the tests of lines 31 and 34, which round [position + 20]
    and [position - 20], decide exactly what they mean: the horizontal
    test holds if and only if [position.x >= 780] or [position.x <= 20],
    the vertical one if and only if [position.y >= 430] or
    [position.y <= 20].  No rounding fires a reflection early or misses
    one, for any binary32 position, infinite or NaN included. *)
Theorem wall_tests_are_exact (b : Ball) :
  radius b = BALL_RADIUS ->
  wf (x (position b)) = true ->
  wf (y (position b)) = true ->
  hits_x b SCREEN_WIDTH
  = le (of_int 780) (x (position b)) || le (x (position b)) (of_int 20)
  /\ hits_y b SCREEN_HEIGHT
     = le (of_int 430) (y (position b)) || le (y (position b)) (of_int 20).
Proof.
  intros Hr Wx Wy. split; [apply hits_x_exact | apply hits_y_exact];
    assumption.
Qed.

Lemma wall_tests_are_exact_witness :
  radius (ball_at 780 20 3 4) = BALL_RADIUS /\
  wf (x (position (ball_at 780 20 3 4))) = true /\
  wf (y (position (ball_at 780 20 3 4))) = true /\
  hits_x (ball_at 780 20 3 4) SCREEN_WIDTH = true /\
  hits_y (ball_at 780 20 3 4) SCREEN_HEIGHT = true.
Proof.
  split; [reflexivity | split; [reflexivity | split; [reflexivity | ] ] ].
  exact (wall_tests_are_exact (ball_at 780 20 3 4) eq_refl eq_refl eq_refl).
Defined.

(** * A side wall sends the ball back *)

Lemma between_le_true (a b : float) (la ha lb hb : Z) :
  between a la ha -> between b lb hb -> ha <= lb -> le a b = true.
Proof.
  intros Ba Bb Hle.
  pose proof (between_not_nan _ _ _ Ba) as Na.
  pose proof (between_not_nan _ _ _ Bb) as Nb.
  destruct Ba as (Wa & _ & Ha). destruct Bb as (Wb & _ & Hb).
  apply le_F2Z; try assumption.
  assert (Hu : 0 < 2 ^ 149) by reflexivity. nia.
Qed.

(** One frame of a ball that is between the side walls
    ([20 <= position.x <= 780]) with a horizontal velocity of the
    program ([2 <= |velocity.x| <= 8]).  [position.x] is not clamped, but
    it passes a wall by at most 8: it ends within [12, 788].  When the
    horizontal test does not hold the ball is still between the walls;
    when the ball ends at or past the left wall its velocity points to
    the right, at or past the right wall to the left, so that the frame
    after moves it towards the inside. *)
Theorem side_wall_sends_the_ball_back (b : Ball) (H : Z) :
  radius b = BALL_RADIUS ->
  wf (x (position b)) = true ->
  wf (x (velocity b)) = true ->
  position_x_ok (x (position b)) = true ->
  speed_ok (x (velocity b)) = true ->
  le (of_int 12) (x (position (UpdateBall b SCREEN_WIDTH H))) = true /\
  le (x (position (UpdateBall b SCREEN_WIDTH H))) (of_int 788) = true /\
  (hits_x (move b) SCREEN_WIDTH = false ->
   position_x_ok (x (position (UpdateBall b SCREEN_WIDTH H))) = true) /\
  (le (x (position (UpdateBall b SCREEN_WIDTH H))) (of_int 20) = true ->
   le (of_int 2) (x (velocity (UpdateBall b SCREEN_WIDTH H))) = true) /\
  (le (of_int 780) (x (position (UpdateBall b SCREEN_WIDTH H))) = true ->
   le (x (velocity (UpdateBall b SCREEN_WIDTH H))) (of_int (-2)) = true).
Proof.
  intros Hr Wp Wv Sp Sv.
  apply andb_true_iff in Sv as [S1 S2]. apply andb_true_iff in Sp as [P1 P2].
  pose proof (between_of_le _ 20 780 Wp ltac:(lia) ltac:(lia) ltac:(lia) P1 P2)
    as Bp.
  pose proof (between_of_int 12 ltac:(lia)) as B12.
  pose proof (between_of_int 20 ltac:(lia)) as B20.
  pose proof (between_of_int 780 ltac:(lia)) as B780.
  pose proof (between_of_int 788 ltac:(lia)) as B788.
  pose proof (between_of_int 2 ltac:(lia)) as B2.
  pose proof (between_of_int (-2) ltac:(lia)) as Bm2.
  assert (Hrm : radius (move b) = BALL_RADIUS) by exact Hr.
  assert (Hit : hits_x (move b) SCREEN_WIDTH
                = le (of_int 780) (add (x (position b)) (x (velocity b)))
                  || le (add (x (position b)) (x (velocity b))) (of_int 20)).
  { rewrite (hits_x_exact (move b) Hrm); rewrite move_position_x;
      [reflexivity | ].
    apply wf_add; assumption. }
  rewrite UpdateBall_position_x, UpdateBall_velocity_x, Hit.
  unfold position_x_ok.
  destruct (between_of_abs _ 2 8 Wv ltac:(lia) ltac:(lia) ltac:(lia) S1 S2)
    as [Bv | Bv].
  - assert (Bx : between (add (x (position b)) (x (velocity b)))
                   (20 + 2) (780 + 8))
      by (apply between_add; try assumption; lia).
    assert (L20 : le (add (x (position b)) (x (velocity b))) (of_int 20)
                  = false)
      by (apply (between_le_false _ _ _ _ _ _ Bx B20); lia).
    rewrite L20, orb_false_r.
    split; [apply (between_le_true _ _ _ _ _ _ B12 Bx); lia | ].
    split; [apply (between_le_true _ _ _ _ _ _ Bx B788); lia | ].
    split; [ | split].
    + intros Far. apply andb_true_iff. split.
      * apply (between_le_true _ _ _ _ _ _ B20 Bx). lia.
      * destruct (Z.le_gt_cases (F2Z (add (x (position b)) (x (velocity b))))
                    (780 * 2 ^ 149)) as [L | G].
        -- apply le_F2Z; try apply Bx; try apply B780;
             try (eapply between_not_nan; eassumption).
           destruct B780 as (_ & _ & V). lia.
        -- assert (C : le (of_int 780)
                         (add (x (position b)) (x (velocity b))) = true).
           { apply le_F2Z; try apply Bx; try apply B780;
               try (eapply between_not_nan; eassumption).
             destruct B780 as (_ & _ & V). lia. }
           rewrite C in Far. discriminate Far.
    + intros C. discriminate C.
    + intros Far. rewrite Far, mul_m1 by exact Wv.
      apply (between_le_true _ _ _ _ _ _ (between_opp _ _ _ Bv) Bm2). lia.
  - assert (Bx : between (add (x (position b)) (x (velocity b)))
                   (20 + - 8) (780 + - 2))
      by (apply between_add; try assumption; lia).
    assert (L780 : le (of_int 780) (add (x (position b)) (x (velocity b)))
                   = false)
      by (apply (between_le_false _ _ _ _ _ _ B780 Bx); lia).
    rewrite L780, orb_false_l.
    split; [apply (between_le_true _ _ _ _ _ _ B12 Bx); lia | ].
    split; [apply (between_le_true _ _ _ _ _ _ Bx B788); lia | ].
    split; [ | split].
    + intros Near. apply andb_true_iff. split.
      * destruct (Z.le_gt_cases (20 * 2 ^ 149)
                    (F2Z (add (x (position b)) (x (velocity b)))))
          as [L | G].
        -- apply le_F2Z; try apply Bx; try apply B20;
             try (eapply between_not_nan; eassumption).
           destruct B20 as (_ & _ & V). lia.
        -- assert (C : le (add (x (position b)) (x (velocity b)))
                         (of_int 20) = true).
           { apply le_F2Z; try apply Bx; try apply B20;
               try (eapply between_not_nan; eassumption).
             destruct B20 as (_ & _ & V). lia. }
           rewrite C in Near. discriminate Near.
      * apply (between_le_true _ _ _ _ _ _ Bx B780). lia.
    + intros Near. rewrite Near, mul_m1 by exact Wv.
      apply (between_le_true _ _ _ _ _ _ B2 (between_opp _ _ _ Bv)). lia.
    + intros C. discriminate C.
Qed.

Lemma side_wall_sends_the_ball_back_witness :
  x (position (UpdateBall (ball_at 22 100 (-3) 2) SCREEN_WIDTH SCREEN_HEIGHT))
  = of_int 19 /\
  le (of_int 2)
     (x (velocity (UpdateBall (ball_at 22 100 (-3) 2)
                     SCREEN_WIDTH SCREEN_HEIGHT))) = true.
Proof.
  split; [reflexivity | ].
  exact (proj1 (proj2 (proj2 (proj2
           (side_wall_sends_the_ball_back (ball_at 22 100 (-3) 2)
              SCREEN_HEIGHT eq_refl eq_refl eq_refl eq_refl eq_refl))))
         eq_refl).
Defined.

(** * The side walls over a run *)

(** ** Rounding is within half a step of the grid *)

Lemma rnd_at_near (n z : Z) :
  1 <= n -> z - 2 ^ (n - 1) <= rnd_at n z <= z + 2 ^ (n - 1).
Proof.
  intros Hn.
  assert (Hp : 2 ^ n = 2 * 2 ^ (n - 1)).
  { replace n with (Z.succ (n - 1)) at 1 by lia. apply Z.pow_succ_r. lia. }
  pose proof (pow2_pos (n - 1) ltac:(lia)) as Hh.
  pose proof (Z.div_mod z (2 ^ n) ltac:(lia)) as Hd.
  pose proof (Z.mod_pos_bound z (2 ^ n) ltac:(lia)) as Hr.
  unfold rnd_at, round_up.
  set (q := z / 2 ^ n) in *. set (r := z mod 2 ^ n) in *.
  destruct (Z.ltb_spec (2 ^ n) (2 * r)); destruct (Z.eqb_spec (2 * r) (2 ^ n));
    destruct (Z.odd q); simpl b2z; nia.
Qed.

Lemma rnd_near (z hi : Z) :
  0 < z <= hi -> hi < overflow ->
  z - 2 ^ (shift_of hi - 1) <= rnd z <= z + 2 ^ (shift_of hi - 1).
Proof.
  intros [Hz Hhi] Hov. rewrite rnd_of_pos by exact Hz.
  assert (Hs : shift_of z <= shift_of hi).
  { unfold shift_of. pose proof (Z.log2_le_mono z hi Hhi). lia. }
  assert (Hb : z - 2 ^ (shift_of hi - 1) <= rnd_pos z <= z + 2 ^ (shift_of hi - 1)).
  { unfold rnd_pos. destruct (Z.eq_dec (shift_of z) 0) as [E | E].
    - rewrite E. unfold rnd_at, round_up. rewrite Z.pow_0_r, Z.mod_1_r, Z.div_1_r.
      simpl b2z. pose proof (Z.pow_nonneg 2 (shift_of hi - 1) ltac:(lia)). lia.
    - pose proof (shift_of_nonneg z).
      pose proof (rnd_at_near (shift_of z) z ltac:(lia)).
      pose proof (pow2_le (shift_of z - 1) (shift_of hi - 1) ltac:(lia)). lia. }
  lia.
Qed.

Lemma back_from_left (p s : Z) :
  2 * 2 ^ 149 <= s <= 8 * 2 ^ 149 ->
  rnd (20 * 2 ^ 149 - s) <= p -> 20 * 2 ^ 149 <= rnd (p + s).
Proof.
  intros Hs Hp.
  assert (Hu : 0 < 2 ^ 149) by reflexivity.
  pose proof (rnd_near (20 * 2 ^ 149 - s) (18 * 2 ^ 149) ltac:(lia)
                ltac:(reflexivity)) as [Hn _].
  change (shift_of (18 * 2 ^ 149)) with 130 in Hn.
  assert (E : rnd (20 * 2 ^ 149 - 2 ^ (130 - 1)) = 20 * 2 ^ 149)
    by (vm_compute; reflexivity).
  rewrite <- E. apply rnd_mono. lia.
Qed.

Lemma back_from_right (p s : Z) :
  2 * 2 ^ 149 <= s <= 8 * 2 ^ 149 ->
  p <= rnd (780 * 2 ^ 149 + s) -> rnd (p - s) <= 780 * 2 ^ 149.
Proof.
  intros Hs Hp.
  assert (Hu : 0 < 2 ^ 149) by reflexivity.
  pose proof (rnd_near (780 * 2 ^ 149 + s) (788 * 2 ^ 149) ltac:(lia)
                ltac:(reflexivity)) as [_ Hn].
  change (shift_of (788 * 2 ^ 149)) with 135 in Hn.
  assert (E : rnd (780 * 2 ^ 149 + 2 ^ (135 - 1)) = 780 * 2 ^ 149)
    by (vm_compute; reflexivity).
  rewrite <- E. apply rnd_mono. lia.
Qed.

(** ** Turning at a wall and coming back *)

Lemma between_value (f : float) (lo hi : Z) :
  between f lo hi ->
  wf f = true /\ is_nan f = false /\ lo * 2 ^ 149 <= F2Z f <= hi * 2 ^ 149.
Proof.
  intros B. pose proof (between_not_nan _ _ _ B) as N.
  destruct B as (W & _ & V). auto.
Qed.

Lemma between_of_value (f : float) (lo hi : Z) :
  wf f = true -> is_nan f = false -> - 2 ^ 24 < lo -> hi < 2 ^ 24 ->
  lo * 2 ^ 149 <= F2Z f <= hi * 2 ^ 149 -> between f lo hi.
Proof.
  intros W N Hlo Hhi V. apply between_make with (v := F2Z f); try assumption.
  repeat split; assumption.
Qed.

Lemma between_add_value (a b : float) (la ha lb hb : Z) :
  between a la ha -> between b lb hb ->
  F2Z (add a b) = rnd (F2Z a + F2Z b).
Proof.
  intros (Wa & Fa & _) (Wb & Fb & _). apply (add_spec a b Wa Wb Fa Fb).
Qed.

Lemma F2Z_of_int (k : Z) :
  - 2 ^ 24 < k < 2 ^ 24 -> F2Z (of_int k) = k * 2 ^ 149.
Proof. intros Hk. destruct (between_of_int k Hk) as (_ & _ & V). lia. Qed.

(** A ball that reaches the left wall from between the walls is past it
    by no more than its step. *)
Lemma left_turn (p v : float) :
  between p 20 780 -> between v (- 8) (- 2) ->
  le (add p v) (of_int 20) = true ->
  between (add p v) 12 20 /\ le (add (of_int 20) v) (add p v) = true.
Proof.
  intros Bp Bv L.
  pose proof (between_of_int 20 ltac:(lia)) as B20.
  pose proof (between_add _ _ _ _ _ _ Bp Bv ltac:(lia) ltac:(lia)) as Bx.
  pose proof (between_add _ _ _ _ _ _ B20 Bv ltac:(lia) ltac:(lia)) as Bf.
  destruct (between_value _ _ _ Bx) as (Wx & Nx & Vx).
  destruct (between_value _ _ _ Bf) as (Wf & Nf & Vf).
  destruct (between_value _ _ _ B20) as (W20 & N20 & V20).
  destruct (between_value _ _ _ Bp) as (_ & _ & Vp).
  apply (le_F2Z _ _ Wx W20 Nx N20) in L.
  split.
  - apply between_of_value; try assumption; lia.
  - apply (le_F2Z _ _ Wf Wx Nf Nx).
    rewrite (between_add_value _ _ _ _ _ _ B20 Bv),
            (between_add_value _ _ _ _ _ _ Bp Bv).
    apply rnd_mono. lia.
Qed.

Lemma right_turn (p v : float) :
  between p 20 780 -> between v 2 8 ->
  le (of_int 780) (add p v) = true ->
  between (add p v) 780 788 /\ le (add p v) (add (of_int 780) v) = true.
Proof.
  intros Bp Bv L.
  pose proof (between_of_int 780 ltac:(lia)) as B780.
  pose proof (between_add _ _ _ _ _ _ Bp Bv ltac:(lia) ltac:(lia)) as Bx.
  pose proof (between_add _ _ _ _ _ _ B780 Bv ltac:(lia) ltac:(lia)) as Bf.
  destruct (between_value _ _ _ Bx) as (Wx & Nx & Vx).
  destruct (between_value _ _ _ Bf) as (Wf & Nf & Vf).
  destruct (between_value _ _ _ B780) as (W780 & N780 & V780).
  destruct (between_value _ _ _ Bp) as (_ & _ & Vp).
  apply (le_F2Z _ _ W780 Wx N780 Nx) in L.
  split.
  - apply between_of_value; try assumption; lia.
  - apply (le_F2Z _ _ Wx Wf Nx Nf).
    rewrite (between_add_value _ _ _ _ _ _ B780 Bv),
            (between_add_value _ _ _ _ _ _ Bp Bv).
    apply rnd_mono. lia.
Qed.

(** A ball past the left wall by no more than its step, moving to the
    right, is between the walls after the step, however the sums are
    rounded. *)
Lemma left_back (p v : float) :
  wf p = true -> between v 2 8 ->
  le (add (of_int 20) (SFopp v)) p = true -> le p (of_int 20) = true ->
  between p 12 20 /\ between (add p v) 20 28.
Proof.
  intros Wp Bv L1 L2.
  pose proof (between_of_int 20 ltac:(lia)) as B20.
  pose proof (between_opp _ _ _ Bv) as Bo.
  pose proof (between_add _ _ _ _ _ _ B20 Bo ltac:(lia) ltac:(lia)) as Bf.
  destruct (between_value _ _ _ Bf) as (Wf & Nf & Vf).
  destruct (between_value _ _ _ B20) as (W20 & N20 & V20).
  destruct (between_value _ _ _ Bv) as (_ & _ & Vv).
  pose proof (le_not_nan _ _ L2) as [Np _].
  pose proof (proj1 (le_F2Z _ _ Wf Wp Nf Np) L1) as V1.
  pose proof (proj1 (le_F2Z _ _ Wp W20 Np N20) L2) as V2.
  rewrite (between_add_value _ _ _ _ _ _ B20 Bo), F2Z_opp in V1, Vf.
  replace (F2Z (of_int 20) + - F2Z v) with (20 * 2 ^ 149 - F2Z v) in V1, Vf
    by lia.
  assert (Bp : between p 12 20)
    by (apply between_of_value; try assumption; lia).
  split; [exact Bp | ].
  pose proof (between_add _ _ _ _ _ _ Bp Bv ltac:(lia) ltac:(lia)) as Bx.
  destruct (between_value _ _ _ Bx) as (Wx & Nx & Vx).
  apply between_of_value; try assumption; try lia.
  split; [ | lia].
  rewrite (between_add_value _ _ _ _ _ _ Bp Bv).
  apply back_from_left; lia.
Qed.

Lemma right_back (p v : float) :
  wf p = true -> between v (- 8) (- 2) ->
  le (of_int 780) p = true -> le p (add (of_int 780) (SFopp v)) = true ->
  between p 780 788 /\ between (add p v) 772 780.
Proof.
  intros Wp Bv L1 L2.
  pose proof (between_of_int 780 ltac:(lia)) as B780.
  pose proof (between_opp _ _ _ Bv) as Bo.
  pose proof (between_add _ _ _ _ _ _ B780 Bo ltac:(lia) ltac:(lia)) as Bf.
  destruct (between_value _ _ _ Bf) as (Wf & Nf & Vf).
  destruct (between_value _ _ _ B780) as (W780 & N780 & V780).
  destruct (between_value _ _ _ Bv) as (_ & _ & Vv).
  pose proof (le_not_nan _ _ L1) as [_ Np].
  pose proof (proj1 (le_F2Z _ _ W780 Wp N780 Np) L1) as V1.
  pose proof (proj1 (le_F2Z _ _ Wp Wf Np Nf) L2) as V2.
  rewrite (between_add_value _ _ _ _ _ _ B780 Bo), F2Z_opp in V2, Vf.
  replace (F2Z (of_int 780) + - F2Z v) with (780 * 2 ^ 149 + - F2Z v)
    in V2, Vf by lia.
  assert (Bp : between p 780 788)
    by (apply between_of_value; try assumption; lia).
  split; [exact Bp | ].
  pose proof (between_add _ _ _ _ _ _ Bp Bv ltac:(lia) ltac:(lia)) as Bx.
  destruct (between_value _ _ _ Bx) as (Wx & Nx & Vx).
  apply between_of_value; try assumption; try lia.
  split; [lia | ].
  rewrite (between_add_value _ _ _ _ _ _ Bp Bv).
  replace (F2Z p + F2Z v) with (F2Z p - - F2Z v) by lia.
  apply back_from_right; lia.
Qed.


Lemma le_total (a b : float) (la ha lb hb : Z) :
  between a la ha -> between b lb hb -> le a b = false -> le b a = true.
Proof.
  intros Ba Bb L.
  destruct (between_value _ _ _ Ba) as (Wa & Na & _).
  destruct (between_value _ _ _ Bb) as (Wb & Nb & _).
  apply (le_F2Z_false _ _ Wa Wb Na Nb) in L.
  apply (le_F2Z _ _ Wb Wa Nb Na). lia.
Qed.

Lemma position_x_ok_between (p : float) (lo hi : Z) :
  between p lo hi -> 20 <= lo -> hi <= 780 -> position_x_ok p = true.
Proof.
  intros B Hlo Hhi. unfold position_x_ok. apply andb_true_iff. split.
  - apply (between_le_true _ _ _ _ _ _ (between_of_int 20 ltac:(lia)) B). lia.
  - apply (between_le_true _ _ _ _ _ _ B (between_of_int 780 ltac:(lia))). lia.
Qed.

Lemma between_position_x_ok (p : float) :
  wf p = true -> position_x_ok p = true -> between p 20 780.
Proof.
  intros W P. apply andb_true_iff in P as [P1 P2].
  apply between_of_le; try assumption; lia.
Qed.

Lemma speed_ok_sign (v : float) :
  wf v = true -> speed_ok v = true -> between v 2 8 \/ between v (- 8) (- 2).
Proof.
  intros W S. apply andb_true_iff in S as [S1 S2].
  apply between_of_abs; try assumption; lia.
Qed.

(** What [side_ok] says, in intervals. *)
Lemma side_ok_cases (b : Ball) :
  wf (x (position b)) = true -> wf (x (velocity b)) = true ->
  speed_ok (x (velocity b)) = true -> side_ok b = true ->
  between (x (position b)) 20 780
  \/ (between (x (velocity b)) 2 8 /\ between (x (position b)) 12 20
      /\ between (add (x (position b)) (x (velocity b))) 20 28)
  \/ (between (x (velocity b)) (- 8) (- 2) /\ between (x (position b)) 780 788
      /\ between (add (x (position b)) (x (velocity b))) 772 780).
Proof.
  intros Wp Wv Sv S. unfold side_ok in S.
  pose proof (between_of_int 0 ltac:(lia)) as B0.
  apply orb_true_iff in S as [S | S]; [apply orb_true_iff in S as [S | S] | ].
  - left. apply between_position_x_ok; assumption.
  - right. left. rewrite !andb_true_iff in S. destruct S as [[S0 L1] L2].
    destruct (speed_ok_sign _ Wv Sv) as [Bv | Bv].
    + split; [exact Bv | apply left_back; assumption].
    + rewrite (between_le_false _ _ _ _ _ _ B0 Bv) in S0 by lia.
      discriminate S0.
  - right. right. rewrite !andb_true_iff in S. destruct S as [[S0 L1] L2].
    destruct (speed_ok_sign _ Wv Sv) as [Bv | Bv].
    + rewrite (between_le_false _ _ _ _ _ _ Bv B0) in S0 by lia.
      discriminate S0.
    + split; [exact Bv | apply right_back; assumption].
Qed.

Lemma hits_x_move (b : Ball) :
  radius b = BALL_RADIUS ->
  wf (x (position b)) = true -> wf (x (velocity b)) = true ->
  hits_x (move b) SCREEN_WIDTH
  = le (of_int 780) (add (x (position b)) (x (velocity b)))
    || le (add (x (position b)) (x (velocity b))) (of_int 20).
Proof.
  intros Hr Wp Wv.
  assert (Hrm : radius (move b) = BALL_RADIUS) by exact Hr.
  rewrite (hits_x_exact (move b) Hrm); rewrite move_position_x;
    [reflexivity | apply wf_add; assumption].
Qed.

(** The state of a ball between the walls after one step. *)
Lemma side_ok_from_inside (b : Ball) (H : Z) :
  radius b = BALL_RADIUS ->
  wf (x (velocity b)) = true -> speed_ok (x (velocity b)) = true ->
  between (x (position b)) 20 780 ->
  side_ok (UpdateBall b SCREEN_WIDTH H) = true.
Proof.
  intros Hr Wv Sv Bp.
  pose proof (between_of_int 0 ltac:(lia)) as B0.
  pose proof (between_of_int 20 ltac:(lia)) as B20.
  pose proof (between_of_int 780 ltac:(lia)) as B780.
  assert (Wp : wf (x (position b)) = true) by apply Bp.
  unfold side_ok.
  rewrite UpdateBall_position_x, UpdateBall_velocity_x,
    (hits_x_move b Hr Wp Wv).
  destruct (speed_ok_sign _ Wv Sv) as [Bv | Bv].
  - pose proof (between_add _ _ _ _ _ _ Bp Bv ltac:(lia) ltac:(lia)) as Bx.
    rewrite (between_le_false _ _ _ _ _ _ Bx B20) by lia.
    rewrite orb_false_r.
    destruct (le (of_int 780) (add (x (position b)) (x (velocity b))))
      eqn:Far.
    + destruct (right_turn _ _ Bp Bv Far) as [_ Lf].
      rewrite mul_m1, opp_opp, Lf by exact Wv.
      rewrite (between_le_true _ _ _ _ _ _ (between_opp _ _ _ Bv) B0) by lia.
      apply orb_true_r.
    + pose proof (le_total _ _ _ _ _ _ B780 Bx Far) as Hle.
      unfold position_x_ok. rewrite Hle.
      rewrite (between_le_true _ _ _ _ _ _ B20 Bx) by lia. reflexivity.
  - pose proof (between_add _ _ _ _ _ _ Bp Bv ltac:(lia) ltac:(lia)) as Bx.
    rewrite (between_le_false _ _ _ _ _ _ B780 Bx) by lia.
    rewrite orb_false_l.
    destruct (le (add (x (position b)) (x (velocity b))) (of_int 20))
      eqn:Near.
    + destruct (left_turn _ _ Bp Bv Near) as [_ Lf].
      rewrite mul_m1, opp_opp, Lf by exact Wv.
      rewrite (between_le_true _ _ _ _ _ _ B0 (between_opp _ _ _ Bv)) by lia.
      rewrite orb_true_r. reflexivity.
    + pose proof (le_total _ _ _ _ _ _ Bx B20 Near) as Hle.
      unfold position_x_ok. rewrite Hle.
      rewrite (between_le_true _ _ _ _ _ _ Bx B780) by lia. reflexivity.
Qed.

Lemma side_ok_UpdateBall (b : Ball) (H : Z) :
  radius b = BALL_RADIUS ->
  wf (x (position b)) = true -> wf (x (velocity b)) = true ->
  speed_ok (x (velocity b)) = true -> side_ok b = true ->
  side_ok (UpdateBall b SCREEN_WIDTH H) = true.
Proof.
  intros Hr Wp Wv Sv S.
  destruct (side_ok_cases b Wp Wv Sv S) as [Bp | [(_ & _ & Bx) | (_ & _ & Bx)]].
  - apply side_ok_from_inside; assumption.
  - unfold side_ok. rewrite UpdateBall_position_x.
    rewrite (position_x_ok_between _ _ _ Bx) by lia. reflexivity.
  - unfold side_ok. rewrite UpdateBall_position_x.
    rewrite (position_x_ok_between _ _ _ Bx) by lia. reflexivity.
Qed.

Lemma side_ok_bounds (b : Ball) :
  wf (x (position b)) = true -> wf (x (velocity b)) = true ->
  speed_ok (x (velocity b)) = true -> side_ok b = true ->
  le (of_int 12) (x (position b)) = true
  /\ le (x (position b)) (of_int 788) = true.
Proof.
  intros Wp Wv Sv S.
  pose proof (between_of_int 12 ltac:(lia)) as B12.
  pose proof (between_of_int 788 ltac:(lia)) as B788.
  destruct (side_ok_cases b Wp Wv Sv S) as [Bp | [(_ & Bp & _) | (_ & Bp & _)]];
    split;
    first [ apply (between_le_true _ _ _ _ _ _ B12 Bp); lia
          | apply (between_le_true _ _ _ _ _ _ Bp B788); lia ].
Qed.

(** Outside the walls the velocity points back inside. *)
Lemma side_ok_outside (b : Ball) :
  wf (x (position b)) = true -> wf (x (velocity b)) = true ->
  speed_ok (x (velocity b)) = true -> side_ok b = true ->
  position_x_ok (x (position b)) = false ->
  (le (x (position b)) (of_int 20) = true
   /\ le (of_int 2) (x (velocity b)) = true)
  \/ (le (of_int 780) (x (position b)) = true
      /\ le (x (velocity b)) (of_int (- 2)) = true).
Proof.
  intros Wp Wv Sv S Out.
  pose proof (between_of_int 2 ltac:(lia)) as B2.
  pose proof (between_of_int (- 2) ltac:(lia)) as Bm2.
  pose proof (between_of_int 20 ltac:(lia)) as B20.
  pose proof (between_of_int 780 ltac:(lia)) as B780.
  destruct (side_ok_cases b Wp Wv Sv S) as [Bp | [(Bv & Bp & _) | (Bv & Bp & _)]].
  - rewrite (position_x_ok_between _ _ _ Bp) in Out by lia. discriminate Out.
  - left. split.
    + apply (between_le_true _ _ _ _ _ _ Bp B20). lia.
    + apply (between_le_true _ _ _ _ _ _ B2 Bv). lia.
  - right. split.
    + apply (between_le_true _ _ _ _ _ _ B780 Bp). lia.
    + apply (between_le_true _ _ _ _ _ _ Bv Bm2). lia.
Qed.

(** ** The state of a ball at the end of a frame *)

Lemma frame_ok_UpdateBall (b : Ball) :
  frame_ok b -> frame_ok (UpdateBall b SCREEN_WIDTH SCREEN_HEIGHT).
Proof.
  intros [Hb Hs]. split; [apply ball_ok_UpdateBall, Hb | ].
  destruct Hb as (Hr & Wpx & _ & Wvx & _ & _ & Sx & _).
  apply side_ok_UpdateBall; assumption.
Qed.

Lemma frame_ok_frames (n : nat) (balls : list Ball) :
  Forall frame_ok balls -> Forall frame_ok (frames_balls n balls).
Proof.
  revert balls. induction n as [ | n IH]; intros balls Hb; [exact Hb | ].
  simpl frames_balls. apply IH. unfold update_all.
  apply Forall_map. revert Hb. apply Forall_impl.
  intros b. apply frame_ok_UpdateBall.
Qed.

Lemma frame_ok_x (b : Ball) :
  frame_ok b ->
  le (of_int 12) (x (position b)) = true
  /\ le (x (position b)) (of_int 788) = true
  /\ (position_x_ok (x (position b)) = false ->
      (le (x (position b)) (of_int 20) = true
       /\ le (of_int 2) (x (velocity b)) = true)
      \/ (le (of_int 780) (x (position b)) = true
          /\ le (x (velocity b)) (of_int (- 2)) = true)).
Proof.
  intros [(Hr & Wpx & _ & Wvx & _ & _ & Sx & _) Hs].
  destruct (side_ok_bounds b Wpx Wvx Sx Hs) as [L1 L2].
  split; [exact L1 | split; [exact L2 | ] ].
  apply side_ok_outside; assumption.
Qed.


Section EveryFrameSides.

Variable rng : Type.
Variable GetRandomValue : Z -> Z -> rng -> Z * rng.
Hypothesis GetRandomValue_range :
  forall (lo hi : Z) (g : rng),
    lo <= hi -> lo <= fst (GetRandomValue lo hi g) <= hi.

Lemma init_ball_frame_ok (g : rng) :
  frame_ok (fst (init_ball rng GetRandomValue g)).
Proof.
  split; [apply init_ball_ball_ok, GetRandomValue_range | ].
  pose proof (init_ball_ok rng GetRandomValue GetRandomValue_range g) as Hok.
  unfold initial_ok in Hok. rewrite !andb_true_iff in Hok.
  destruct Hok as [[[Hx _] _] _].
  unfold side_ok. rewrite Hx. reflexivity.
Qed.

Lemma init_balls_frame_ok (n : nat) (g : rng) :
  Forall frame_ok (fst (init_balls rng GetRandomValue n g)).
Proof.
  revert g. induction n as [ | n IH]; intros g; simpl init_balls.
  - constructor.
  - pose proof (init_ball_frame_ok g) as Hb.
    destruct (init_ball rng GetRandomValue g) as [b g1]. simpl fst in Hb.
    specialize (IH g1).
    destruct (init_balls rng GetRandomValue n g1) as [bs g2].
    simpl fst in *. constructor; assumption.
Qed.

Lemma frames_frame_ok (g : rng) (n : nat) :
  Forall frame_ok
    (frames_balls n (fst (init_balls rng GetRandomValue NUM_BALLS g))).
Proof. apply frame_ok_frames, init_balls_frame_ok. Qed.

(** When the random generator answers within the range it is asked for,
    at every frame of every run each ball has the radius 20, binary32
    numbers for coordinates, [position.y] within [20, 430], a velocity
    whose components have kept their absolute value within [2.0, 8.0],
    and a [position.x] that is between the walls or past one of them by
    no more than one step of [velocity.x], on its way back; so have the
    balls that a run that returns leaves behind.  For such a ball
    [position.x] is within [12, 788], and where it is not within
    [20, 780] the ball is at or past the left wall with
    [velocity.x >= 2], or at or past the right wall with
    [velocity.x <= -2]. *)
Theorem every_frame_invariant (g : rng) :
  (forall n : nat,
      Forall frame_ok
        (frames_balls n (fst (init_balls rng GetRandomValue NUM_BALLS g))))
  /\ (forall (closes : list bool) (out : Outcome),
         main GetRandomValue g closes = Some out ->
         Forall frame_ok (final_balls out))
  /\ (forall b : Ball,
         frame_ok b ->
         le (of_int 12) (x (position b)) = true
         /\ le (x (position b)) (of_int 788) = true
         /\ (position_x_ok (x (position b)) = false ->
             (le (x (position b)) (of_int 20) = true
              /\ le (of_int 2) (x (velocity b)) = true)
             \/ (le (of_int 780) (x (position b)) = true
                 /\ le (x (velocity b)) (of_int (- 2)) = true))).
Proof.
  split; [intros n; apply frames_frame_ok | split].
  - intros closes out. unfold main.
    pose proof (init_balls_frame_ok NUM_BALLS g) as H0.
    destruct (init_balls rng GetRandomValue NUM_BALLS g) as [balls g'].
    simpl fst in H0.
    destruct (main_loop closes balls _) as [[[bs tr] rest] | ] eqn:E;
      intros Eo; [ | discriminate Eo].
    injection Eo as <-. simpl final_balls.
    destruct (main_loop_returns _ _ _ _ _ _ E) as (n & _ & -> & _).
    apply frame_ok_frames, H0.
  - exact frame_ok_x.
Qed.

End EveryFrameSides.

Lemma every_frame_invariant_witness :
  (forall (lo hi : Z) (g : unit), lo <= hi -> lo <= fst (lowest lo hi g) <= hi) /\
  (forall n : nat,
      Forall frame_ok (frames_balls n (fst (init_balls unit lowest NUM_BALLS tt)))).
Proof.
  split.
  - intros lo hi g H. unfold lowest, fst. lia.
  - exact (proj1 (every_frame_invariant unit lowest
                    (fun lo hi g H => conj (Z.le_refl lo) H) tt)).
Defined.




